(** * atum: explicit lifetime control for objects of static storage duration

    A shallow embedding of [include/atum.hpp]: the raw [storage] cell, the
    initializer policies, and the wrappers [manual_init], [lazy_init],
    [nifty_init] and [scoped_initializer], followed by the theorems about
    the lifetimes they manage.

    The wrappers are global objects that are mutated through references, so
    the program state is one shared store, the [World], and every member
    function is a computation over it.  What the model leaves out: the type
    [T] is abstract (only the lifetime of the object matters, not its
    value), and its constructor and destructor return normally. *)

From Stdlib Require Import ZArith Lia.
From stdpp Require Import gmap strings list.

Local Open Scope Z_scope.

(** ** Program state *)

(** Addresses of objects of static storage duration. *)
Abbreviation addr := nat (only parsing).

(** What [T& get()] returns: the address of [_obj]. *)
Abbreviation ref := nat (only parsing).

(** The two things that happen to the [T] inside a storage cell. *)
Inductive event : Type :=
| EvConstruct (a : addr)   (* Initializer::init<T>(memory) ran at a *)
| EvDestruct (a : addr).   (* ~T() ran at a *)

Global Instance event_eq_dec : EqDecision event.
Proof. solve_decision. Defined.

(** Value of the function-local static of [lazy_init::initialize]:
    [void*] in checked builds, [bool] otherwise. *)
Inductive static_val : Type :=
| SPtr (p : addr)
| SBool (b : bool).

Global Instance static_val_eq_dec : EqDecision static_val.
Proof. solve_decision. Defined.

(** A class template instantiation [lazy_init<Tag, T, Initializer>], by the
    names of its three arguments.  Each instantiation has its own
    [initialize()] member function, hence its own function-local static. *)
Abbreviation instantiation := (string * string * string)%type (only parsing).

Record World : Type := mkWorld {
  (* live objects, by the address of the storage they occupy; an object is
     identified by the position of its construction in the history *)
  objects : gmap addr nat;
  (* function-local statics whose initialization has completed *)
  statics : gmap instantiation static_val;
  (* manual_init::_initialized (the member exists in checked builds only) *)
  initialized : gmap addr bool;
  (* nifty_init::_count *)
  counts : gmap addr Z;
  (* history of constructions and destructions, oldest first *)
  events : list event
}.

(** Program start: no object is alive, no static is initialized, and the
    constant-initialized members hold their initial values (read below as
    the default of an absent key). *)
Definition initial_world : World :=
  {| objects := ∅; statics := ∅; initialized := ∅; counts := ∅; events := [] |}.

Definition set_static (k : instantiation) (v : static_val) (w : World) : World :=
  {| objects := objects w; statics := <[k := v]> (statics w);
     initialized := initialized w; counts := counts w; events := events w |}.

Definition set_initialized (a : addr) (b : bool) (w : World) : World :=
  {| objects := objects w; statics := statics w;
     initialized := <[a := b]> (initialized w); counts := counts w;
     events := events w |}.

Definition set_count (a : addr) (c : Z) (w : World) : World :=
  {| objects := objects w; statics := statics w;
     initialized := initialized w; counts := <[a := c]> (counts w);
     events := events w |}.

(** Number of constructions and of destructor runs at [a] in a history. *)
Definition constructions (a : addr) (h : list event) : nat :=
  length (filter (λ e, e = EvConstruct a) h).

Definition destructions (a : addr) (h : list event) : nat :=
  length (filter (λ e, e = EvDestruct a) h).

(** ** Outcomes and the monad of member functions *)

Inductive failure : Type :=
| AssertionFailed   (* ATUM_LIFETIME_ASSERT(false) *)
| Terminated        (* an exception left a noexcept function *)
| Undefined.        (* a destructor call on storage that holds no object *)

Global Instance failure_eq_dec : EqDecision failure.
Proof. solve_decision. Defined.

Inductive outcome (A : Type) : Type :=
| Ok (a : A) (w : World)            (* returned a *)
| Thrown (w : World)                (* left by an exception *)
| Aborted (f : failure) (w : World).

Arguments Ok {A} a w.
Arguments Thrown {A} w.
Arguments Aborted {A} f w.

Definition M (A : Type) : Type := World → outcome A.

Definition ret {A} (a : A) : M A := λ w, Ok a w.

Definition bind {A B} (m : M A) (k : A → M B) : M B :=
  λ w, match m w with
       | Ok a w' => k a w'
       | Thrown w' => Thrown w'
       | Aborted f w' => Aborted f w'
       end.

Notation "x <- m ;; k" := (bind m (λ x, k))
  (at level 100, m at next level, right associativity).
Notation "m ;;; k" := (bind m (λ _, k))
  (at level 100, right associativity).

(** [ATUM_LIFETIME_ASSERT(Cond)]: [assert(Cond)] when [ATUM_CHECK_LIFETIME]
    is set, and no code at all (the condition is not even evaluated)
    otherwise. *)
Definition ATUM_LIFETIME_ASSERT (ATUM_CHECK_LIFETIME : bool)
    (Cond : World → bool) : M unit :=
  λ w, if ATUM_CHECK_LIFETIME
       then (if Cond w then Ok tt w else Aborted AssertionFailed w)
       else Ok tt w.

(** ** storage<T> *)

Record storage : Type := Storage { obj_addr : addr }.

Module storage_ops.
(** [T& get()]: the lvalue [_obj]; nothing is checked. *)
Definition get (s : storage) : ref := obj_addr s.
(** [void* memory()]: [&_obj]. *)
Definition memory (s : storage) : addr := obj_addr s.
End storage_ops.

(** ** Initializer policies

    [init_default], [init_from], [init_braced] and [init_fn] all are one
    placement-new expression at [memory]; they differ in the constructor
    arguments only.  A placement-new over storage that still holds an
    object reuses the storage: the old object is gone without a destructor
    call. *)
Definition init (memory : addr) : M unit :=
  λ w, Ok tt {| objects := <[memory := length (events w)]> (objects w);
                statics := statics w; initialized := initialized w;
                counts := counts w;
                events := events w ++ [EvConstruct memory] |}.

(** The explicit destructor call [_storage.get().~T()]. *)
Definition destruct_at (r : ref) : M unit :=
  λ w, match objects w !! r with
       | Some _ =>
           Ok tt {| objects := delete r (objects w);
                    statics := statics w; initialized := initialized w;
                    counts := counts w;
                    events := events w ++ [EvDestruct r] |}
       | None => Aborted Undefined w
       end.

(** ** manual_init<T, Initializer> *)

Module manual_init.
Record t : Type := Make { _storage : storage }.

Definition this (x : t) : addr := obj_addr (_storage x).

(** [bool _initialized = false;] *)
Definition _initialized (x : t) (w : World) : bool :=
  default false (initialized w !! this x).

Section Build.
Variable ATUM_CHECK_LIFETIME : bool.

Definition initialize (x : t) : M unit :=
  init (storage_ops.memory (_storage x)) ;;;
  if ATUM_CHECK_LIFETIME
  then (λ w, Ok tt (set_initialized (this x) true w))
  else ret tt.

Definition destroy (x : t) : M unit :=
  destruct_at (storage_ops.get (_storage x)) ;;;
  if ATUM_CHECK_LIFETIME
  then (λ w, Ok tt (set_initialized (this x) false w))
  else ret tt.

Definition get (x : t) : M ref :=
  ATUM_LIFETIME_ASSERT ATUM_CHECK_LIFETIME (_initialized x) ;;;
  ret (storage_ops.get (_storage x)).

(** [operator*] returns [get()], [operator->] returns [&get()]. *)
Definition operator_star (x : t) : M ref := get x.
Definition operator_arrow (x : t) : M addr := get x.
End Build.
End manual_init.

(** ** lazy_init<Tag, T, Initializer> *)

(** A block-scope [static] (here without threads; the guarded form is in
    [threads] below): the initializer expression runs when control
    passes the declaration and the variable is not yet initialized; an
    initialization that exits by an exception leaves it uninitialized. *)
Definition static_local (k : instantiation) (initexpr : M static_val)
    : M static_val :=
  λ w, match statics w !! k with
       | Some v => Ok v w
       | None =>
           match initexpr w with
           | Ok v w' => Ok v (set_static k v w')
           | Thrown w' => Thrown w'
           | Aborted f w' => Aborted f w'
           end
       end.

Module lazy_init.
Record t : Type := Make { class : instantiation; _storage : storage }.

(** [_storage] is the only data member: the instance is identified by
    the address of its storage. *)
Definition this (x : t) : addr := obj_addr (_storage x).

Section Build.
Variable ATUM_CHECK_LIFETIME : bool.

Definition initialize (x : t) : M unit :=
  if ATUM_CHECK_LIFETIME then
    initializer <- static_local (class x)
      (init (storage_ops.memory (_storage x)) ;;; ret (SPtr (this x))) ;;
    ATUM_LIFETIME_ASSERT true
      (λ _, bool_decide (initializer = SPtr (this x)))
  else
    initializer <- static_local (class x)
      (init (storage_ops.memory (_storage x)) ;;; ret (SBool true)) ;;
    ret tt.

(** [void destroy() && noexcept { /* leak */ }] *)
Definition destroy (x : t) : M unit := ret tt.

Definition get (x : t) : M ref :=
  initialize x ;;;
  ret (storage_ops.get (_storage x)).

Definition operator_star (x : t) : M ref := get x.
Definition operator_arrow (x : t) : M addr := get x.
End Build.
End lazy_init.

(** ** nifty_init<T, Initializer> *)

(** [int] arithmetic of [std::atomic<int>]: two's complement, 32 bits,
    wrapping. *)
Definition int_wrap (z : Z) : Z := (z + 2 ^ 31) mod 2 ^ 32 - 2 ^ 31.

Module nifty_init.
Record t : Type := Make { _storage : storage }.

Definition this (x : t) : addr := obj_addr (_storage x).

(** [constexpr nifty_init() : _count(0) {}] *)
Definition _count (x : t) (w : World) : Z :=
  default 0 (counts w !! this x).

(** [_count++]: the value before the increment. *)
Definition post_increment (x : t) : M Z :=
  λ w, let old := _count x w in
       Ok old (set_count (this x) (int_wrap (old + 1)) w).

(** [--_count]: the value after the decrement. *)
Definition pre_decrement (x : t) : M Z :=
  λ w, let new := int_wrap (_count x w - 1) in
       Ok new (set_count (this x) new w).

Section Build.
Variable ATUM_CHECK_LIFETIME : bool.

Definition reference (x : t) : M ref :=
  ret (storage_ops.get (_storage x)).

Definition initialize (x : t) : M unit :=
  old <- post_increment x ;;
  if old =? 0
  then init (storage_ops.memory (_storage x))
  else ret tt.

Definition destroy (x : t) : M unit :=
  new <- pre_decrement x ;;
  if new =? 0
  then destruct_at (storage_ops.get (_storage x))
  else ret tt.

Definition get (x : t) : M ref :=
  ATUM_LIFETIME_ASSERT ATUM_CHECK_LIFETIME (λ w, 0 <? _count x w) ;;;
  ret (storage_ops.get (_storage x)).

Definition operator_star (x : t) : M ref := get x.
Definition operator_arrow (x : t) : M addr := get x.
End Build.
End nifty_init.

(** ** scoped_initializer<Inits...> *)

Module scoped_initializer.
Inductive method : Type := Initialize | Destroy.

Global Instance method_eq_dec : EqDecision method.
Proof. solve_decision. Defined.

(** A member call made by the group: which function, on which object. *)
Definition call : Type := method * addr.

(** One element of the pack [auto&... Inits]: a reference to any object
    that has [initialize()] and [destroy()].  The group does not own it. *)
Record entity : Type := Entity {
  e_addr : addr;
  e_initialize : M unit;
  e_destroy : M unit
}.

(** The code of the group itself runs in [G]: [M] together with the
    list of member calls the group has made so far, in order.  The code
    of the entities cannot touch that list. *)
Definition G (A : Type) : Type := World → list call * outcome A.

Definition g_ret {A} (a : A) : G A := λ w, ([], Ok a w).

Definition g_bind {A B} (m : G A) (k : A → G B) : G B :=
  λ w, match m w with
       | (l, Ok a w') => let '(l', o) := k a w' in (l ++ l', o)
       | (l, Thrown w') => (l, Thrown w')
       | (l, Aborted f w') => (l, Aborted f w')
       end.

Definition invoke (m : method) (e : entity) : G unit :=
  λ w, ([(m, e_addr e)],
        match m with
        | Initialize => e_initialize e w
        | Destroy => e_destroy e w
        end).

(** An exception that reaches the boundary of a [noexcept] function
    calls [std::terminate]. *)
Definition noexcept {A} (m : G A) : G A :=
  λ w, match m w with
       | (l, Thrown w') => (l, Aborted Terminated w')
       | r => r
       end.

(** [(Inits.initialize(), ...)]: a right fold over the comma operator,
    [E1, (E2, (... , En))]; the left operand of a comma is evaluated
    first.  The empty pack gives [void()]. *)
Fixpoint comma_fold (Inits : list entity) : G unit :=
  match Inits with
  | [] => g_ret tt
  | e :: rest => g_bind (invoke Initialize e) (λ _, comma_fold rest)
  end.

(** [((Inits.destroy(), dummy) = ... = 0)]: a right fold over [=],
    [p1 = (p2 = (... (pn = 0)))] with [pi = (Inits_i.destroy(), dummy)];
    the right operand of an assignment is evaluated before the left
    one.  The result is the value assigned to [dummy]. *)
Fixpoint assign_fold (Inits : list entity) : G Z :=
  match Inits with
  | [] => g_ret 0
  | e :: rest =>
      g_bind (assign_fold rest) (λ v,
      g_bind (invoke Destroy e) (λ _,
      g_ret v))
  end.

(** [scoped_initializer()] *)
Definition ctor (Inits : list entity) : G unit := comma_fold Inits.

(** [~scoped_initializer() noexcept] *)
Definition dtor (Inits : list entity) : G unit :=
  noexcept (g_bind (assign_fold Inits) (λ _, g_ret tt)).

(** A block [{ scoped_initializer<Inits...> guard; body }].  The
    destructor of [guard] runs when the block is left, by its end, by
    a [return] or by an exception thrown in [body]; an exception from
    the constructor means there is no [guard] to destroy, and a
    process that aborts runs no destructor. *)
Definition scope {A} (Inits : list entity) (body : M A) : G A :=
  λ w, match ctor Inits w with
       | (l, Ok _ w1) =>
           match body w1 with
           | Ok a w2 =>
               match dtor Inits w2 with
               | (l', Ok _ w3) => (l ++ l', Ok a w3)
               | (l', Thrown w3) => (l ++ l', Thrown w3)
               | (l', Aborted f w3) => (l ++ l', Aborted f w3)
               end
           | Thrown w2 =>
               match dtor Inits w2 with
               | (l', Ok _ w3) => (l ++ l', Thrown w3)
               | (l', Thrown w3) => (l ++ l', Thrown w3)
               | (l', Aborted f w3) => (l ++ l', Aborted f w3)
               end
           | Aborted f w2 => (l, Aborted f w2)
           end
       | (l, Thrown w1) => (l, Thrown w1)
       | (l, Aborted f w1) => (l, Aborted f w1)
       end.

(** The same group code run [n] times in a row: [n] groups over the
    same pack, as when every translation unit has its own
    [nifty_counter_for<Nifty>]. *)
Fixpoint g_repeat (n : nat) (m : G unit) : G unit :=
  match n with
  | O => g_ret tt
  | S n' => g_bind m (λ _, g_repeat n' m)
  end.



(** The calls in the order of the pack, and in the reverse order. *)
Definition inits (Inits : list entity) : list call :=
  map (λ e, (Initialize, e_addr e)) Inits.

Definition destroys (Inits : list entity) : list call :=
  map (λ e, (Destroy, e_addr e)) (rev Inits).

(** The atum wrappers as entities, and the alias
    [nifty_counter_for<Nifty> = scoped_initializer<Nifty>]. *)
Section Build.
Variable ATUM_CHECK_LIFETIME : bool.

Definition of_manual (x : manual_init.t) : entity :=
  {| e_addr := manual_init.this x;
     e_initialize := manual_init.initialize ATUM_CHECK_LIFETIME x;
     e_destroy := manual_init.destroy ATUM_CHECK_LIFETIME x |}.

Definition of_lazy (x : lazy_init.t) : entity :=
  {| e_addr := lazy_init.this x;
     e_initialize := lazy_init.initialize ATUM_CHECK_LIFETIME x;
     e_destroy := lazy_init.destroy x |}.

Definition of_nifty (x : nifty_init.t) : entity :=
  {| e_addr := nifty_init.this x;
     e_initialize := nifty_init.initialize x;
     e_destroy := nifty_init.destroy x |}.

Definition nifty_counter_for (Nifty : nifty_init.t) : list entity :=
  [of_nifty Nifty].
End Build.
End scoped_initializer.


(** ** Threads in lazy_init::get()

    With threads, the declaration of the function-local static is a
    guarded initialization: the first thread to reach it takes the guard
    and evaluates the initializer expression; a thread that reaches it
    while the guard is taken waits; once the initialization has completed
    every thread passes.  The threads are interleaved step by step. *)

Module threads.
Abbreviation tid := nat (only parsing).

(** Where a thread is inside [get()]. *)
Inductive pc : Type :=
| AtStatic                          (* before the declaration of the static *)
| Initializing                      (* holds the guard, inside the initializer *)
| PastStatic (initializer : static_val)   (* before the assertion *)
| AtReturn                          (* before [return _storage.get()] *)
| Returned (r : ref)
| Raised                            (* left get() by an exception *)
| Crashed (f : failure).

Global Instance pc_eq_dec : EqDecision pc.
Proof. solve_decision. Defined.

Record state : Type := State {
  world : World;
  (* the statics under initialization, with the thread that runs it *)
  guard : gmap instantiation tid;
  (* thread i is at pcs !! i *)
  pcs : list pc
}.

Section Build.
Variable ATUM_CHECK_LIFETIME : bool.
Variable x : lazy_init.t.

(** The initializer expression of the static in [initialize()]. *)
Definition initializer_expr : M static_val :=
  if ATUM_CHECK_LIFETIME
  then (init (storage_ops.memory (lazy_init._storage x)) ;;;
        ret (SPtr (lazy_init.this x)))
  else (init (storage_ops.memory (lazy_init._storage x)) ;;;
        ret (SBool true)).

(** What follows the declaration in [initialize()]. *)
Definition after_static (initializer : static_val) : M unit :=
  if ATUM_CHECK_LIFETIME
  then ATUM_LIFETIME_ASSERT true
         (λ _, bool_decide (initializer = SPtr (lazy_init.this x)))
  else ret tt.

Definition set_pc (i : tid) (p : pc) (s : state) : state :=
  {| world := world s; guard := guard s; pcs := <[i := p]> (pcs s) |}.

(** One step of thread [i]; [None] when the thread cannot move: it has
    left [get()], or it waits at the declaration. *)
Definition thread_step (i : tid) (s : state) : option state :=
  let k := lazy_init.class x in
  match pcs s !! i with
  | Some AtStatic =>
      match statics (world s) !! k with
      | Some v => Some (set_pc i (PastStatic v) s)
      | None =>
          match guard s !! k with
          | None =>
              Some {| world := world s; guard := <[k := i]> (guard s);
                      pcs := <[i := Initializing]> (pcs s) |}
          | Some _ => None
          end
      end
  | Some Initializing =>
      match initializer_expr (world s) with
      | Ok v w' =>
          Some {| world := set_static k v w'; guard := delete k (guard s);
                  pcs := <[i := PastStatic v]> (pcs s) |}
      | Thrown w' =>
          Some {| world := w'; guard := delete k (guard s);
                  pcs := <[i := Raised]> (pcs s) |}
      | Aborted f w' =>
          Some {| world := w'; guard := guard s;
                  pcs := <[i := Crashed f]> (pcs s) |}
      end
  | Some (PastStatic v) =>
      match after_static v (world s) with
      | Ok _ w' =>
          Some {| world := w'; guard := guard s;
                  pcs := <[i := AtReturn]> (pcs s) |}
      | Thrown w' =>
          Some {| world := w'; guard := guard s;
                  pcs := <[i := Raised]> (pcs s) |}
      | Aborted f w' =>
          Some {| world := w'; guard := guard s;
                  pcs := <[i := Crashed f]> (pcs s) |}
      end
  | Some AtReturn =>
      Some (set_pc i (Returned (storage_ops.get (lazy_init._storage x))) s)
  | Some (Returned _) | Some Raised | Some (Crashed _) | None => None
  end.



(** Runs a schedule: the threads step in the given order (a thread that
    cannot move when its turn comes is skipped). *)
Fixpoint run (schedule : list tid) (s : state) : state :=
  match schedule with
  | [] => s
  | i :: rest =>
      match thread_step i s with
      | Some s' => run rest s'
      | None => run rest s
      end
  end.





End Build.
End threads.


(** ** Callers

    What the theorems quantify over: sequences of member calls made by
    one thread of the host program. *)

(** Runs the computations one after the other and collects the results. *)
Fixpoint sequence {A} (ms : list (M A)) : M (list A) :=
  match ms with
  | [] => ret []
  | m :: rest => a <- m ;; r <- sequence rest ;; ret (a :: r)
  end.

Module lazy_client.
Inductive call : Type := CallInitialize | CallGet.

(** The call, with what it hands back: a reference for [get()]. *)
Definition do_call (ATUM_CHECK_LIFETIME : bool) (x : lazy_init.t) (c : call)
    : M (option ref) :=
  match c with
  | CallInitialize => lazy_init.initialize ATUM_CHECK_LIFETIME x ;;; ret None
  | CallGet => r <- lazy_init.get ATUM_CHECK_LIFETIME x ;; ret (Some r)
  end.

(** The reference a call is expected to hand back. *)
Definition expected (x : lazy_init.t) (c : call) : option ref :=
  match c with
  | CallInitialize => None
  | CallGet => Some (obj_addr (lazy_init._storage x))
  end.

(** The value the static of [initialize()] gets when [x] initializes it. *)
Definition static_of (ATUM_CHECK_LIFETIME : bool) (x : lazy_init.t)
    : static_val :=
  if ATUM_CHECK_LIFETIME then SPtr (lazy_init.this x) else SBool true.

(** A program that uses several instances: every call names its
    instance. *)
Definition run (ATUM_CHECK_LIFETIME : bool)
    (calls : list (lazy_init.t * call)) : M (list (option ref)) :=
  sequence (map (λ zc, do_call ATUM_CHECK_LIFETIME (fst zc) (snd zc)) calls).

(** Every instantiation has one instance only, at an address of its
    own. *)
Definition one_per_instantiation (zs : list lazy_init.t) : Prop :=
  ∀ z z', z ∈ zs → z' ∈ zs →
    lazy_init.class z = lazy_init.class z' ∨
    lazy_init.this z = lazy_init.this z' →
    z = z'.
End lazy_client.

Module nifty_client.
Inductive op : Type := Claim | Release.

Definition do_op (x : nifty_init.t) (o : op) : M unit :=
  match o with
  | Claim => nifty_init.initialize x
  | Release => nifty_init.destroy x
  end.

(** The state of a nifty counter with [d] claims outstanding: the count
    is [d], and the storage holds an object exactly when [d] is positive. *)
Definition state (x : nifty_init.t) (d : Z) (w : World) : Prop :=
  nifty_init._count x w = d ∧
  if 0 <? d then is_Some (objects w !! nifty_init.this x)
  else objects w !! nifty_init.this x = None.

Fixpoint run (x : nifty_init.t) (ops : list op) : M unit :=
  match ops with
  | [] => ret tt
  | o :: rest => do_op x o ;;; run x rest
  end.

(** [within limit depth ops]: starting with [depth] claims outstanding, no
    release in [ops] comes without an outstanding claim to match it, and
    the number of outstanding claims stays below [limit]. *)
Fixpoint within (limit : Z) (depth : Z) (ops : list op) : bool :=
  match ops with
  | [] => true
  | Claim :: rest => (depth + 1 <? limit) && within limit (depth + 1) rest
  | Release :: rest => (0 <? depth) && within limit (depth - 1) rest
  end.

(** Every release has a matching outstanding claim, with no bound on
    how many claims are outstanding. *)
Fixpoint matched (depth : nat) (ops : list op) : bool :=
  match ops with
  | [] => true
  | Claim :: rest => matched (S depth) rest
  | Release :: rest =>
      match depth with
      | O => false
      | S d => matched d rest
      end
  end.

(** In [ops], begun with [depth] claims outstanding, some claim is
    outstanding at every moment. *)
Fixpoint stays_claimed (depth : Z) (ops : list op) : bool :=
  match ops with
  | [] => 0 <? depth
  | Claim :: rest => (0 <? depth) && stays_claimed (depth + 1) rest
  | Release :: rest => (0 <? depth) && stays_claimed (depth - 1) rest
  end.

(** Outstanding claims after [ops]. *)
Fixpoint depth_after (depth : Z) (ops : list op) : Z :=
  match ops with
  | [] => depth
  | Claim :: rest => depth_after (depth + 1) rest
  | Release :: rest => depth_after (depth - 1) rest
  end.

(** Claims made while none is outstanding, and releases of the last
    outstanding claim. *)
Fixpoint first_claims (depth : Z) (ops : list op) : nat :=
  match ops with
  | [] => O
  | Claim :: rest =>
      ((if (depth =? 0)%Z then 1 else 0) + first_claims (depth + 1) rest)%nat
  | Release :: rest => first_claims (depth - 1) rest
  end.

Fixpoint last_releases (depth : Z) (ops : list op) : nat :=
  match ops with
  | [] => O
  | Claim :: rest => last_releases (depth + 1) rest
  | Release :: rest =>
      ((if (depth =? 1)%Z then 1 else 0) + last_releases (depth - 1) rest)%nat
  end.
End nifty_client.

(** The state a computation leaves behind, however it ends. *)
Definition final {A} (o : outcome A) : World :=
  match o with
  | Ok _ w => w
  | Thrown w => w
  | Aborted _ w => w
  end.

(** [confined a m]: whatever the state and however it ends, [m] writes
    no static, no object, counter or flag at an address other than [a],
    and adds to the history only constructions and destructions at
    [a]. *)
Definition confined {A} (a : addr) (m : M A) : Prop :=
  ∀ w,
    statics (final (m w)) = statics w ∧
    (∀ b, b ≠ a →
       objects (final (m w)) !! b = objects w !! b ∧
       counts (final (m w)) !! b = counts w !! b ∧
       initialized (final (m w)) !! b = initialized w !! b) ∧
    ∃ l, events (final (m w)) = events w ++ l ∧
         Forall (λ e, e = EvConstruct a ∨ e = EvDestruct a) l.

Module manual_client.
Inductive op : Type := Initialize | Destroy | Get.

Definition do_op (ATUM_CHECK_LIFETIME : bool) (x : manual_init.t) (o : op)
    : M (option ref) :=
  match o with
  | Initialize => manual_init.initialize ATUM_CHECK_LIFETIME x ;;; ret None
  | Destroy => manual_init.destroy ATUM_CHECK_LIFETIME x ;;; ret None
  | Get => r <- manual_init.get ATUM_CHECK_LIFETIME x ;; ret (Some r)
  end.

Definition run (ATUM_CHECK_LIFETIME : bool) (x : manual_init.t)
    (ops : list op) : M (list (option ref)) :=
  sequence (map (do_op ATUM_CHECK_LIFETIME x) ops).

(** [_initialized] says whether the storage holds an object. *)
Definition tracked (x : manual_init.t) (w : World) : Prop :=
  manual_init._initialized x w = true ↔
  is_Some (objects w !! manual_init.this x).

(** Two states that differ at most in the [_initialized] members. *)
Definition same_but_flags (w w' : World) : Prop :=
  objects w = objects w' ∧ statics w = statics w' ∧
  counts w = counts w' ∧ events w = events w'.
End manual_client.

(** ** Basic facts about the store *)

Lemma constructions_app a h1 h2 :
  constructions a (h1 ++ h2) = (constructions a h1 + constructions a h2)%nat.
Proof. unfold constructions. by rewrite filter_app, length_app. Qed.

Lemma destructions_app a h1 h2 :
  destructions a (h1 ++ h2) = (destructions a h1 + destructions a h2)%nat.
Proof. unfold destructions. by rewrite filter_app, length_app. Qed.

Lemma constructions_construct a : constructions a [EvConstruct a] = 1%nat.
Proof. unfold constructions. by rewrite filter_cons_True. Qed.

Lemma constructions_other a b :
  a ≠ b → constructions a [EvConstruct b] = 0%nat.
Proof.
  intros Hne. unfold constructions.
  rewrite filter_cons_False; [done|]. intros [= ?]. by apply Hne.
Qed.

Lemma constructions_destruct a b : constructions a [EvDestruct b] = 0%nat.
Proof. unfold constructions. by rewrite filter_cons_False. Qed.

Lemma destructions_destruct a : destructions a [EvDestruct a] = 1%nat.
Proof. unfold destructions. by rewrite filter_cons_True. Qed.

Lemma destructions_construct a b : destructions a [EvConstruct b] = 0%nat.
Proof. unfold destructions. by rewrite filter_cons_False. Qed.


Lemma destruct_at_live a o w :
  objects w !! a = Some o →
  ∃ w', destruct_at a w = Ok tt w' ∧
        objects w' = delete a (objects w) ∧
        statics w' = statics w ∧ initialized w' = initialized w ∧
        counts w' = counts w ∧ events w' = events w ++ [EvDestruct a].
Proof. intros H. unfold destruct_at. rewrite H. eexists. by repeat split. Qed.

Lemma sequence_unchanged {A} (m : M A) (a : A) (w : World) (n : nat) :
  m w = Ok a w → sequence (replicate n m) w = Ok (replicate n a) w.
Proof.
  intros H. induction n as [|n IH]; [done|].
  simpl. unfold bind at 1. rewrite H. unfold bind at 1. by rewrite IH.
Qed.

(** ** manual_init *)

Section ManualInit.
Variable x : manual_init.t.
Let a : addr := manual_init.this x.

Lemma manual_initialize_spec (checked : bool) (w : World) :
  ∃ w', manual_init.initialize checked x w = Ok tt w' ∧
        objects w' !! a = Some (length (events w)) ∧
        events w' = events w ++ [EvConstruct a] ∧
        (checked = true → manual_init._initialized x w' = true) ∧
        (checked = false → initialized w' = initialized w).
Proof.
  destruct checked; eexists; (split; [reflexivity|]); simpl;
    repeat split; try done; try apply lookup_insert_eq.
  unfold manual_init._initialized. simpl. by rewrite lookup_insert_eq.
Qed.

Lemma manual_get_checked (w : World) :
  manual_init.get true x w =
    if manual_init._initialized x w then Ok a w else Aborted AssertionFailed w.
Proof.
  unfold manual_init.get, bind, ATUM_LIFETIME_ASSERT.
  by destruct (manual_init._initialized x w).
Qed.

Lemma manual_get_unchecked (w : World) : manual_init.get false x w = Ok a w.
Proof. reflexivity. Qed.

Lemma manual_destroy_live (checked : bool) (w : World) (o : nat) :
  objects w !! a = Some o →
  ∃ w', manual_init.destroy checked x w = Ok tt w' ∧
        objects w' !! a = None ∧
        events w' = events w ++ [EvDestruct a] ∧
        (checked = true → manual_init._initialized x w' = false).
Proof.
  intros Hlive. subst a.
  unfold manual_init.destroy, bind, destruct_at, storage_ops.get.
  unfold manual_init.this in *. rewrite Hlive.
  destruct checked; eexists; (split; [reflexivity|]); simpl;
    repeat split; try done; try apply lookup_delete_eq.
  intros _. unfold manual_init._initialized. simpl.
  by rewrite lookup_insert_eq.
Qed.
End ManualInit.

(** C6: in a checked build [get()] asserts [_initialized]: it fails the
    assertion on an instance that was never initialized, and again once
    [destroy()] has run; from [initialize()] until [destroy()] every call
    of [get()] returns the reference to the one object that
    [initialize()] constructed and changes nothing; [destroy()] runs the
    destructor of that object exactly once. *)
Theorem manual_init_checked_lifecycle (x : manual_init.t) (w : World) :
  let a := manual_init.this x in
  (manual_init.get true x w =
     if manual_init._initialized x w then Ok a w
     else Aborted AssertionFailed w) ∧
  manual_init.get true x initial_world = Aborted AssertionFailed initial_world ∧
  ∃ w1 w2 o,
    manual_init.initialize true x w = Ok tt w1 ∧
    objects w1 !! a = Some o ∧
    (∀ n, sequence (replicate n (manual_init.get true x)) w1
          = Ok (replicate n a) w1) ∧
    manual_init.destroy true x w1 = Ok tt w2 ∧
    events w2 = events w1 ++ [EvDestruct a] ∧
    destructions a (events w2) = S (destructions a (events w1)) ∧
    objects w2 !! a = None ∧
    manual_init.get true x w2 = Aborted AssertionFailed w2.
Proof.
  intros a. split; [apply manual_get_checked|]. split; [reflexivity|].
  destruct (manual_initialize_spec x true w) as (w1 & Hinit & Hobj & _ & Hflag & _).
  destruct (manual_destroy_live x true w1 _ Hobj) as (w2 & Hdes & Hgone & Hev & Hoff).
  exists w1, w2, (length (events w)). repeat split; try done.
  - intros n. apply sequence_unchanged.
    rewrite manual_get_checked. by rewrite Hflag.
  - rewrite Hev, destructions_app, destructions_destruct. lia.
  - rewrite manual_get_checked. by rewrite Hoff.
Qed.

(** C5, as the code has it: [initialize()] checks nothing.  Called on an
    instance that is already initialized it returns normally in checked
    and unchecked builds alike, having run the Initializer a second time
    in the same storage; no destructor runs for the first object, and in
    a checked build [_initialized] stays true. *)
Theorem manual_init_initialize_twice (checked : bool) (x : manual_init.t)
    (w : World) :
  let a := manual_init.this x in
  ∃ w1 w2,
    manual_init.initialize checked x w = Ok tt w1 ∧
    objects w1 !! a = Some (length (events w)) ∧
    manual_init.initialize checked x w1 = Ok tt w2 ∧
    objects w2 !! a = Some (S (length (events w))) ∧
    events w2 = events w ++ [EvConstruct a; EvConstruct a] ∧
    (checked = true →
       manual_init._initialized x w1 = true ∧
       manual_init._initialized x w2 = true).
Proof.
  intros a.
  destruct (manual_initialize_spec x checked w) as (w1 & H1 & Ho1 & He1 & Hf1 & _).
  destruct (manual_initialize_spec x checked w1) as (w2 & H2 & Ho2 & He2 & Hf2 & _).
  exists w1, w2. subst a. repeat split; try done; try (by auto).
  - rewrite Ho2, He1, length_app. simpl. f_equal. lia.
  - by rewrite He2, He1, <- app_assoc.
Qed.

(** C5, counterexample: a checked build, [initialize()] called twice on
    one instance.  The second call finds [_initialized] set and returns
    normally; no assertion fails. *)
Lemma manual_init_reinitialize_unchecked_by_code :
  let x := manual_init.Make (Storage 1) in
  ∃ w1 w2,
    manual_init.initialize true x initial_world = Ok tt w1 ∧
    manual_init._initialized x w1 = true ∧
    manual_init.initialize true x w1 = Ok tt w2 ∧
    events w2 = [EvConstruct 1%nat; EvConstruct 1%nat] ∧
    ∀ w', manual_init.initialize true x w1 ≠ Aborted AssertionFailed w'.
Proof.
  intros x0. eexists _, _.
  split; [vm_compute; reflexivity|]. split; [vm_compute; reflexivity|].
  split; [vm_compute; reflexivity|]. split; [vm_compute; reflexivity|].
  intros w' H. vm_compute in H. discriminate H.
Qed.

(** ** lazy_init *)

Section LazyInit.
Import lazy_client.
Variable checked : bool.
Variable x : lazy_init.t.
Let a : addr := lazy_init.this x.
Let k : instantiation := lazy_init.class x.

(** The call that finds the static uninitialized constructs. *)
Lemma lazy_initialize_first (w : World) :
  statics w !! k = None →
  ∃ w1, lazy_init.initialize checked x w = Ok tt w1 ∧
        objects w1 = <[a := length (events w)]> (objects w) ∧
        statics w1 = <[k := static_of checked x]> (statics w) ∧
        initialized w1 = initialized w ∧ counts w1 = counts w ∧
        events w1 = events w ++ [EvConstruct a].
Proof.
  subst a k. intros Hnone.
  unfold lazy_init.initialize, static_local, bind.
  destruct checked; rewrite Hnone; simpl.
  - unfold ATUM_LIFETIME_ASSERT. rewrite bool_decide_eq_true_2 by done.
    eexists. by repeat split.
  - eexists. by repeat split.
Qed.

(** A call that finds the static initialized by [x] does nothing. *)
Lemma lazy_initialize_later (w : World) :
  statics w !! k = Some (static_of checked x) →
  lazy_init.initialize checked x w = Ok tt w.
Proof.
  subst a k. intros Hsome.
  unfold lazy_init.initialize, static_local, bind.
  destruct checked; rewrite Hsome; simpl; [|done].
  unfold ATUM_LIFETIME_ASSERT. by rewrite bool_decide_eq_true_2.
Qed.

Lemma lazy_call_first (w : World) (c : call) :
  statics w !! k = None →
  ∃ w1, do_call checked x c w = Ok (expected x c) w1 ∧
        objects w1 = <[a := length (events w)]> (objects w) ∧
        statics w1 = <[k := static_of checked x]> (statics w) ∧
        initialized w1 = initialized w ∧ counts w1 = counts w ∧
        events w1 = events w ++ [EvConstruct a].
Proof.
  intros Hnone.
  destruct (lazy_initialize_first w Hnone) as (w1 & Hinit & Hrest).
  exists w1. split; [|exact Hrest].
  destruct c; unfold do_call, lazy_init.get, bind; by rewrite Hinit.
Qed.

Lemma lazy_call_later (w : World) (c : call) :
  statics w !! k = Some (static_of checked x) →
  do_call checked x c w = Ok (expected x c) w.
Proof.
  intros Hsome. pose proof (lazy_initialize_later w Hsome) as Hinit.
  destruct c; unfold do_call, lazy_init.get, bind; by rewrite Hinit.
Qed.

Lemma lazy_call_get_inv (w w1 : World) :
  do_call checked x CallGet w = Ok (expected x CallGet) w1 →
  lazy_init.get checked x w = Ok a w1.
Proof.
  unfold do_call, bind.
  destruct (lazy_init.get checked x w) as [r w'| |]; [|done|done].
  by intros [= -> ->].
Qed.

Lemma lazy_calls_later (w : World) (cs : list call) :
  statics w !! k = Some (static_of checked x) →
  sequence (map (do_call checked x) cs) w = Ok (map (expected x) cs) w.
Proof.
  intros Hsome. induction cs as [|c cs IH]; [done|].
  simpl. unfold bind at 1. rewrite (lazy_call_later w c Hsome).
  unfold bind at 1. by rewrite IH.
Qed.
End LazyInit.

(** C1, as the code has it: on a [lazy_init] that is the first
    instance of its instantiation to be used (the static of its
    [initialize()] is not yet initialized), any sequence of calls of
    [initialize()] and [get()] runs the Initializer exactly once.  The first call constructs [T] in the storage of the
    instance; every later call returns with the whole state as it found
    it; every [get()] returns the reference to that one object. *)
Theorem lazy_init_constructs_once (checked : bool) (x : lazy_init.t)
    (w : World) (c : lazy_client.call) (rest : list lazy_client.call) :
  let a := lazy_init.this x in
  statics w !! lazy_init.class x = None →
  ∃ w1,
    lazy_client.do_call checked x c w = Ok (lazy_client.expected x c) w1 ∧
    events w1 = events w ++ [EvConstruct a] ∧
    objects w1 !! a = Some (length (events w)) ∧
    (∀ c', lazy_client.do_call checked x c' w1
           = Ok (lazy_client.expected x c') w1) ∧
    sequence (map (lazy_client.do_call checked x) (c :: rest)) w
      = Ok (map (lazy_client.expected x) (c :: rest)) w1 ∧
    constructions a (events w1) = S (constructions a (events w)).
Proof.
  intros a Hnone.
  destruct (lazy_call_first checked x w c Hnone)
    as (w1 & Hcall & Hobj & Hst & _ & _ & Hev).
  assert (Hdone : statics w1 !! lazy_init.class x
                  = Some (lazy_client.static_of checked x))
    by (rewrite Hst; apply lookup_insert_eq).
  exists w1. repeat split; try done.
  - rewrite Hobj. apply lookup_insert_eq.
  - intros c'. by apply lazy_call_later.
  - simpl. unfold bind at 1. rewrite Hcall. unfold bind at 1.
    by rewrite (lazy_calls_later checked x w1 rest Hdone).
  - rewrite Hev, constructions_app, constructions_construct. lia.
Qed.

Lemma lazy_init_constructs_once_witness :
  let x := lazy_init.Make ("logger_tag", "logger", "init_default") (Storage 7) in
  statics initial_world !! lazy_init.class x = None ∧
  ∃ w1,
    sequence (map (lazy_client.do_call true x)
                  [lazy_client.CallGet; lazy_client.CallInitialize;
                   lazy_client.CallGet]) initial_world
      = Ok [Some 7%nat; None; Some 7%nat] w1 ∧
    events w1 = [EvConstruct 7%nat].
Proof.
  intros x. split; [reflexivity|].
  destruct (lazy_init_constructs_once true x initial_world
              lazy_client.CallGet
              [lazy_client.CallInitialize; lazy_client.CallGet] eq_refl)
    as (w1 & _ & Hev & _ & _ & Hseq & _).
  exists w1. split; [exact Hseq | exact Hev].
Defined.

(** C1, counterexample: two instances of one instantiation.  The
    first call on the second instance constructs nothing.  In an
    unchecked build its [initialize()] and [get()] return and leave the
    storage of the instance without an object; in a checked build they
    fail the assertion. *)
Lemma lazy_init_second_instance_not_constructed :
  let x := lazy_init.Make ("tag", "T", "init_default") (Storage 1) in
  let y := lazy_init.Make ("tag", "T", "init_default") (Storage 2) in
  (∃ w1,
     lazy_init.get false x initial_world = Ok 1%nat w1 ∧
     lazy_init.initialize false y w1 = Ok tt w1 ∧
     lazy_init.get false y w1 = Ok 2%nat w1 ∧
     events w1 = [EvConstruct 1%nat] ∧
     constructions 2%nat (events w1) = 0%nat ∧
     objects w1 !! 2%nat = None) ∧
  (∃ w1,
     lazy_init.get true x initial_world = Ok 1%nat w1 ∧
     lazy_init.initialize true y w1 = Aborted AssertionFailed w1 ∧
     lazy_init.get true y w1 = Aborted AssertionFailed w1 ∧
     events w1 = [EvConstruct 1%nat]).
Proof.
  intros x y. subst x y. split.
  - eexists. split; [vm_compute; reflexivity|].
    split; [vm_compute; reflexivity|]. split; [vm_compute; reflexivity|].
    split; [vm_compute; reflexivity|]. split; vm_compute; reflexivity.
  - eexists. split; [vm_compute; reflexivity|].
    split; [vm_compute; reflexivity|]. split; vm_compute; reflexivity.
Qed.

(** A second instance of the same instantiation finds the static
    initialized by the first. *)
Lemma lazy_initialize_foreign (y : lazy_init.t) (p : addr) (w : World) :
  statics w !! lazy_init.class y = Some (SPtr p) →
  p ≠ lazy_init.this y →
  lazy_init.initialize true y w = Aborted AssertionFailed w.
Proof.
  intros Hsome Hne. unfold lazy_init.initialize, static_local, bind.
  rewrite Hsome. unfold ATUM_LIFETIME_ASSERT.
  rewrite bool_decide_eq_false_2; [done|]. intros [= ->]. by apply Hne.
Qed.

(** C7, as the code has it: the static that records the constructing
    instance belongs to [lazy_init<Tag, T, Initializer>::initialize], so
    the check compares instances of one instantiation.  In a checked
    build, once an instance [x] has made its first call, the first call
    of [initialize()] or [get()] on a distinct instance [y] of the same
    instantiation fails the assertion, and nothing is constructed in
    [y]. *)
Theorem lazy_init_same_instantiation_asserts (x y : lazy_init.t) (w : World)
    (c c' : lazy_client.call) :
  lazy_init.class x = lazy_init.class y →
  lazy_init.this x ≠ lazy_init.this y →
  statics w !! lazy_init.class x = None →
  ∃ w1,
    lazy_client.do_call true x c w = Ok (lazy_client.expected x c) w1 ∧
    statics w1 !! lazy_init.class y = Some (SPtr (lazy_init.this x)) ∧
    lazy_client.do_call true y c' w1 = Aborted AssertionFailed w1 ∧
    objects w1 !! lazy_init.this y = objects w !! lazy_init.this y ∧
    constructions (lazy_init.this y) (events w1)
      = constructions (lazy_init.this y) (events w).
Proof.
  intros Hclass Hne Hnone.
  destruct (lazy_call_first true x w c Hnone)
    as (w1 & Hcall & Hobj & Hst & _ & _ & Hev).
  assert (Hrec : statics w1 !! lazy_init.class y = Some (SPtr (lazy_init.this x)))
    by (rewrite Hst, <- Hclass; apply lookup_insert_eq).
  exists w1. repeat split; try done.
  - pose proof (lazy_initialize_foreign y _ w1 Hrec Hne) as Hfail.
    destruct c'; unfold lazy_client.do_call, lazy_init.get, bind;
      by rewrite Hfail.
  - rewrite Hobj. by apply lookup_insert_ne.
  - rewrite Hev, constructions_app, constructions_other by done. lia.
Qed.

Lemma lazy_init_same_instantiation_asserts_witness :
  let x := lazy_init.Make ("config_tag", "config", "init_default") (Storage 1) in
  let y := lazy_init.Make ("config_tag", "config", "init_default") (Storage 2) in
  lazy_init.class x = lazy_init.class y ∧
  lazy_init.this x ≠ lazy_init.this y ∧
  statics initial_world !! lazy_init.class x = None ∧
  ∃ w1,
    lazy_init.get true x initial_world = Ok 1%nat w1 ∧
    lazy_init.get true y w1 = Aborted AssertionFailed w1.
Proof.
  intros x y.
  assert (Hne : lazy_init.this x ≠ lazy_init.this y) by (vm_compute; lia).
  split; [reflexivity|]. split; [exact Hne|]. split; [reflexivity|].
  destruct (lazy_init_same_instantiation_asserts x y initial_world
              lazy_client.CallGet lazy_client.CallGet eq_refl Hne eq_refl)
    as (w1 & Hx & _ & Hy & _).
  exists w1. split.
  - exact (lazy_call_get_inv true x _ _ Hx).
  - unfold lazy_client.do_call, bind in Hy.
    destruct (lazy_init.get true y w1) as [r w'| |];
      [discriminate Hy|discriminate Hy|].
    by injection Hy as <- <-.
Defined.

(** C7, counterexample: two instances with the same Tag and different
    [T], in a checked build.  They are instances of two instantiations,
    each with a static of its own: both are constructed on first use and
    no assertion fails. *)
Lemma lazy_init_same_tag_not_detected :
  let x := lazy_init.Make ("tag", "int", "init_default") (Storage 1) in
  let y := lazy_init.Make ("tag", "long", "init_default") (Storage 2) in
  ∃ w1 w2,
    lazy_init.get true x initial_world = Ok 1%nat w1 ∧
    lazy_init.get true y w1 = Ok 2%nat w2 ∧
    events w2 = [EvConstruct 1%nat; EvConstruct 2%nat] ∧
    ∀ w', lazy_init.get true y w1 ≠ Aborted AssertionFailed w'.
Proof.
  intros x y. eexists _, _.
  split; [vm_compute; reflexivity|]. split; [vm_compute; reflexivity|].
  split; [vm_compute; reflexivity|].
  intros w' H. vm_compute in H. discriminate H.
Qed.

(** X10: without the check, the second instance of an instantiation is
    never constructed: its [initialize()] and [get()] return normally,
    change nothing, and [get()] hands out a reference to storage in
    which nothing was constructed. *)
Lemma lazy_init_same_instantiation_unchecked (x y : lazy_init.t) (w : World)
    (c c' : lazy_client.call) :
  lazy_init.class x = lazy_init.class y →
  lazy_init.this x ≠ lazy_init.this y →
  statics w !! lazy_init.class x = None →
  ∃ w1,
    lazy_client.do_call false x c w = Ok (lazy_client.expected x c) w1 ∧
    lazy_client.do_call false y c' w1 = Ok (lazy_client.expected y c') w1 ∧
    objects w1 !! lazy_init.this y = objects w !! lazy_init.this y.
Proof.
  intros Hclass Hne Hnone.
  destruct (lazy_call_first false x w c Hnone)
    as (w1 & Hcall & Hobj & Hst & _ & _ & Hev).
  exists w1. repeat split; try done.
  - apply (lazy_call_later false y). rewrite Hst, <- Hclass.
    apply lookup_insert_eq.
  - rewrite Hobj. by apply lookup_insert_ne.
Qed.

(** C8: [destroy()] returns at once with the state as it found it: no
    destructor runs and nothing changes.  So once the object is
    constructed, however often [destroy()] is called between the later
    calls, the object stays alive, [get()] keeps returning the reference
    to it, and the history gains no destruction. *)
Theorem lazy_init_destroy_leaks (checked : bool) (x : lazy_init.t)
    (w : World) (c : lazy_client.call) (later : list lazy_client.call) :
  let a := lazy_init.this x in
  lazy_init.destroy x w = Ok tt w ∧
  (statics w !! lazy_init.class x = None →
   ∃ w1,
     lazy_client.do_call checked x c w = Ok (lazy_client.expected x c) w1 ∧
     objects w1 !! a = Some (length (events w)) ∧
     lazy_init.destroy x w1 = Ok tt w1 ∧
     (lazy_init.destroy x ;;; lazy_init.get checked x) w1 = Ok a w1 ∧
     sequence (map (λ c', lazy_init.destroy x ;;;
                          lazy_client.do_call checked x c') later) w1
       = Ok (map (lazy_client.expected x) later) w1 ∧
     destructions a (events w1) = destructions a (events w)).
Proof.
  intros a. split; [reflexivity|]. intros Hnone.
  destruct (lazy_call_first checked x w c Hnone)
    as (w1 & Hcall & Hobj & Hst & _ & _ & Hev).
  assert (Hdone : statics w1 !! lazy_init.class x
                  = Some (lazy_client.static_of checked x))
    by (rewrite Hst; apply lookup_insert_eq).
  exists w1. repeat split; try done.
  - rewrite Hobj. apply lookup_insert_eq.
  - pose proof (lazy_call_later checked x w1 lazy_client.CallGet Hdone) as Hget.
    apply lazy_call_get_inv in Hget.
    unfold lazy_init.destroy, bind, ret. exact Hget.
  - induction later as [|c' later IH]; [done|].
    simpl. unfold bind at 1. unfold lazy_init.destroy at 1, bind at 1, ret at 1.
    rewrite (lazy_call_later checked x w1 c' Hdone).
    unfold bind at 1. by rewrite IH.
  - rewrite Hev, destructions_app, destructions_construct. lia.
Qed.

Lemma lazy_init_destroy_leaks_witness :
  let x := lazy_init.Make ("pool_tag", "pool", "init_default") (Storage 3) in
  statics initial_world !! lazy_init.class x = None ∧
  ∃ w1,
    lazy_init.get false x initial_world = Ok 3%nat w1 ∧
    (lazy_init.destroy x ;;; lazy_init.get false x) w1 = Ok 3%nat w1 ∧
    objects w1 !! 3%nat = Some 0%nat.
Proof.
  intros x. split; [reflexivity|].
  destruct (lazy_init_destroy_leaks false x initial_world
              lazy_client.CallGet []) as [_ H].
  destruct (H eq_refl) as (w1 & Hcall & Hobj & _ & Hget & _).
  exists w1. split; [|split; [exact Hget | exact Hobj]].
  exact (lazy_call_get_inv false x _ _ Hcall).
Defined.

(** ** nifty_init *)

Lemma int_wrap_id (z : Z) : - 2 ^ 31 ≤ z < 2 ^ 31 → int_wrap z = z.
Proof.
  intros H. unfold int_wrap. rewrite Z.mod_small; lia.
Qed.

Lemma int_wrap_succ (z : Z) : int_wrap (int_wrap z + 1) = int_wrap (z + 1).
Proof.
  unfold int_wrap. f_equal.
  replace ((z + 2 ^ 31) mod 2 ^ 32 - 2 ^ 31 + 1 + 2 ^ 31)
    with ((z + 2 ^ 31) mod 2 ^ 32 + 1) by lia.
  replace (z + 1 + 2 ^ 31) with (z + 2 ^ 31 + 1) by lia.
  by rewrite Zplus_mod_idemp_l.
Qed.

Section NiftyInit.
Import nifty_client.
Variable x : nifty_init.t.
Let a : addr := nifty_init.this x.

Lemma nifty_count_set (c : Z) (w : World) :
  nifty_init._count x (set_count a c w) = c.
Proof.
  unfold nifty_init._count, set_count. simpl. subst a.
  by rewrite lookup_insert_eq.
Qed.

(** [initialize()]: the counter goes up by one, and [T] is constructed
    exactly when the counter was 0 before. *)
Lemma nifty_initialize_spec (w : World) :
  ∃ w', nifty_init.initialize x w = Ok tt w' ∧
        nifty_init._count x w' = int_wrap (nifty_init._count x w + 1) ∧
        events w' = events w ++
          (if nifty_init._count x w =? 0 then [EvConstruct a] else []) ∧
        objects w' =
          (if nifty_init._count x w =? 0
           then <[a := length (events w)]> (objects w) else objects w).
Proof.
  unfold nifty_init.initialize, nifty_init.post_increment, bind.
  destruct (nifty_init._count x w =? 0) eqn:E; eexists;
    (split; [reflexivity|]); simpl.
  - split; [apply nifty_count_set|done].
  - split; [apply nifty_count_set|]. by rewrite app_nil_r.
Qed.

(** [destroy()]: the counter goes down by one, and the destructor of [T]
    runs exactly when the counter is 0 afterwards. *)
Lemma nifty_destroy_spec (w : World) :
  let new := int_wrap (nifty_init._count x w - 1) in
  if new =? 0 then
    match objects w !! a with
    | Some _ =>
        ∃ w', nifty_init.destroy x w = Ok tt w' ∧
              nifty_init._count x w' = 0 ∧
              events w' = events w ++ [EvDestruct a] ∧
              objects w' = delete a (objects w)
    | None =>
        nifty_init.destroy x w = Aborted Undefined (set_count a new w)
    end
  else
    ∃ w', nifty_init.destroy x w = Ok tt w' ∧
          nifty_init._count x w' = new ∧
          events w' = events w ∧ objects w' = objects w.
Proof.
  intros new. unfold nifty_init.destroy, nifty_init.pre_decrement, bind.
  fold a. fold new. destruct (new =? 0) eqn:E.
  - unfold destruct_at, storage_ops.get. simpl.
    change (obj_addr (nifty_init._storage x)) with a.
    destruct (objects w !! a) eqn:Hobj; [|done].
    eexists. split; [reflexivity|]. simpl. split; [|done].
    apply Z.eqb_eq in E. unfold nifty_init._count. simpl. fold a.
    by rewrite lookup_insert_eq.
  - eexists. split; [reflexivity|]. split; [apply nifty_count_set|done].
Qed.

Lemma nifty_claim_step (d : Z) (w : World) :
  0 ≤ d → d + 1 < 2 ^ 31 → state x d w →
  ∃ w', nifty_init.initialize x w = Ok tt w' ∧
        state x (d + 1) w' ∧
        events w' = events w ++ (if d =? 0 then [EvConstruct a] else []).
Proof.
  unfold state. fold a. intros Hd Hlim [Hc Hobj].
  destruct (nifty_initialize_spec w) as (w' & Hrun & Hc' & Hev & Ho).
  rewrite Hc in *. exists w'. split; [done|]. split; [|done].
  split; [rewrite Hc'; apply int_wrap_id; lia|].
  replace (0 <? d + 1) with true by (symmetry; apply Z.ltb_lt; lia).
  rewrite Ho. destruct (d =? 0) eqn:E.
  - rewrite lookup_insert_eq. by eexists.
  - apply Z.eqb_neq in E.
    replace (0 <? d) with true in Hobj by (symmetry; apply Z.ltb_lt; lia).
    done.
Qed.

Lemma nifty_release_step (d : Z) (w : World) :
  0 < d → d < 2 ^ 31 → state x d w →
  ∃ w', nifty_init.destroy x w = Ok tt w' ∧
        state x (d - 1) w' ∧
        events w' = events w ++ (if d =? 1 then [EvDestruct a] else []).
Proof.
  unfold state. fold a. intros Hd Hlim [Hc Hobj].
  replace (0 <? d) with true in Hobj by (symmetry; apply Z.ltb_lt; lia).
  destruct Hobj as [o Hobj].
  pose proof (nifty_destroy_spec w) as H. simpl in H. rewrite Hc in H.
  rewrite (int_wrap_id (d - 1)) in H by lia.
  destruct (d =? 1) eqn:E.
  - apply Z.eqb_eq in E. rewrite E in H |- *. simpl in H. rewrite Hobj in H.
    destruct H as (w' & Hrun & Hc' & Hev & Ho). exists w'.
    split; [done|]. split; [|done]. split; [done|]. simpl.
    rewrite Ho. apply lookup_delete_eq.
  - apply Z.eqb_neq in E.
    replace (d - 1 =? 0) with false in H by (symmetry; apply Z.eqb_neq; lia).
    destruct H as (w' & Hrun & Hc' & Hev & Ho). exists w'.
    split; [done|]. split; [|by rewrite Hev, app_nil_r]. split; [done|].
    replace (0 <? d - 1) with true by (symmetry; apply Z.ltb_lt; lia).
    rewrite Ho. by eexists.
Qed.
End NiftyInit.

Section Traces.
Import nifty_client.

Lemma within_app (limit d : Z) (pre post : list op) :
  within limit d (pre ++ post) = true →
  within limit d pre = true ∧ within limit (depth_after d pre) post = true.
Proof.
  revert d. induction pre as [|o pre IH]; intros d H; [done|].
  destruct o; simpl in *; apply andb_true_iff in H as [H1 H2];
    destruct (IH _ H2) as [? ?]; split; try done;
    by apply andb_true_iff.
Qed.

Lemma within_matched (limit : Z) (n : nat) (ops : list op) :
  within limit (Z.of_nat n) ops = true → matched n ops = true.
Proof.
  revert n. induction ops as [|o ops IH]; intros n H; [done|].
  destruct o; simpl in *; apply andb_true_iff in H as [H1 H2].
  - apply IH. by replace (Z.of_nat (S n)) with (Z.of_nat n + 1) by lia.
  - destruct n as [|n]; [done|]. apply IH.
    by replace (Z.of_nat n) with (Z.of_nat (S n) - 1) by lia.
Qed.

(** Constructions and destructions alternate: there is one construction
    more than there are destructions exactly while a claim is outstanding. *)
Lemma first_claims_last_releases (limit d : Z) (ops : list op) :
  0 ≤ d → within limit d ops = true →
  (first_claims d ops + (if (0 <? d)%Z then 1 else 0) =
   last_releases d ops + (if (0 <? depth_after d ops)%Z then 1 else 0))%nat.
Proof.
  revert d. induction ops as [|o ops IH]; intros d Hd H; [simpl; lia|].
  destruct o; simpl in *; apply andb_true_iff in H as [H1 H2].
  - assert (0 ≤ d + 1) as Hd' by lia. specialize (IH _ Hd' H2).
    replace (0 <? d + 1) with true in IH by (symmetry; apply Z.ltb_lt; lia).
    destruct (d =? 0) eqn:E.
    + apply Z.eqb_eq in E. subst d. simpl. lia.
    + apply Z.eqb_neq in E.
      replace (0 <? d) with true by (symmetry; apply Z.ltb_lt; lia). lia.
  - apply Z.ltb_lt in H1.
    assert (0 ≤ d - 1) as Hd' by lia. specialize (IH _ Hd' H2).
    replace (0 <? d) with true by (symmetry; apply Z.ltb_lt; lia).
    destruct (d =? 1) eqn:E.
    + apply Z.eqb_eq in E. subst d. simpl in IH. lia.
    + apply Z.eqb_neq in E.
      replace (0 <? d - 1) with true in IH
        by (symmetry; apply Z.ltb_lt; lia). lia.
Qed.

Lemma stays_claimed_positive (d : Z) (ops : list op) :
  stays_claimed d ops = true → 0 < d.
Proof.
  destruct ops as [|[] ops]; simpl; intros H.
  - by apply Z.ltb_lt.
  - apply andb_true_iff in H as [H _]. by apply Z.ltb_lt.
  - apply andb_true_iff in H as [H _]. by apply Z.ltb_lt.
Qed.

(** While a claim stays outstanding nothing is constructed or destructed. *)
Lemma stays_claimed_quiet (ops : list op) : ∀ d : Z,
  stays_claimed d ops = true →
  first_claims d ops = O ∧ last_releases d ops = O.
Proof.
  induction ops as [|o ops IH]; intros d H; [done|].
  destruct o; simpl in *; apply andb_true_iff in H as [H1 H2];
    apply Z.ltb_lt in H1; destruct (IH _ H2) as [-> ->];
    apply stays_claimed_positive in H2.
  - by replace (d =? 0) with false by (symmetry; apply Z.eqb_neq; lia).
  - by replace (d =? 1) with false by (symmetry; apply Z.eqb_neq; lia).
Qed.


Lemma stays_claimed_then_release (ops : list op) : ∀ d : Z,
  stays_claimed d ops = true →
  first_claims d (ops ++ [Release]) = O ∧
  last_releases d (ops ++ [Release])
    = (if (depth_after d ops =? 1)%Z then 1 else 0)%nat ∧
  depth_after d (ops ++ [Release]) = depth_after d ops - 1.
Proof.
  induction ops as [|o ops IH]; intros d H.
  - simpl. split; [done|]. split; [lia|done].
  - destruct o; simpl in *; apply andb_true_iff in H as [H1 H2];
      apply Z.ltb_lt in H1; pose proof (stays_claimed_positive _ _ H2);
      destruct (IH _ H2) as (-> & -> & ->).
    + by replace (d =? 0) with false by (symmetry; apply Z.eqb_neq; lia).
    + by replace (d =? 1) with false by (symmetry; apply Z.eqb_neq; lia).
Qed.
End Traces.

Section NiftyTraces.
Import nifty_client.
Variable x : nifty_init.t.
Let a : addr := nifty_init.this x.

Lemma nifty_run_within (ops : list op) : ∀ (d : Z) (w : World),
  0 ≤ d < 2 ^ 31 → within (2 ^ 31) d ops = true → state x d w →
  ∃ w', run x ops w = Ok tt w' ∧
        state x (depth_after d ops) w' ∧
        0 ≤ depth_after d ops < 2 ^ 31 ∧
        constructions a (events w')
          = (constructions a (events w) + first_claims d ops)%nat ∧
        destructions a (events w')
          = (destructions a (events w) + last_releases d ops)%nat.
Proof.
  induction ops as [|o ops IH]; intros d w Hd Hin Hst.
  - exists w. split; [done|]. split; [done|]. split; [done|].
    cbn [first_claims last_releases]. by rewrite !Nat.add_0_r.
  - destruct o; simpl in Hin; apply andb_true_iff in Hin as [H1 H2];
      apply Z.ltb_lt in H1.
    + destruct (nifty_claim_step x d w) as (w1 & Hrun & Hst1 & Hev);
        [lia|lia|done|].
      destruct (IH (d + 1) w1) as (w' & Hrest & Hst' & Hd' & Hc & Hdes);
        [lia|done|done|].
      exists w'. simpl. unfold bind. rewrite Hrun.
      split; [done|]. split; [done|]. split; [done|].
      rewrite Hc, Hdes, Hev, constructions_app, destructions_app.
      destruct (d =? 0); simpl.
      * fold a. rewrite constructions_construct, destructions_construct. lia.
      * unfold constructions, destructions. simpl. lia.
    + destruct (nifty_release_step x d w) as (w1 & Hrun & Hst1 & Hev);
        [lia|lia|done|].
      destruct (IH (d - 1) w1) as (w' & Hrest & Hst' & Hd' & Hc & Hdes);
        [lia|done|done|].
      exists w'. simpl. unfold bind. rewrite Hrun.
      split; [done|]. split; [done|]. split; [done|].
      rewrite Hc, Hdes, Hev, constructions_app, destructions_app.
      destruct (d =? 1); simpl.
      * fold a. rewrite constructions_destruct, destructions_destruct. lia.
      * unfold constructions, destructions. simpl. lia.
Qed.

(** [n] claims in a row, without any bound on [n]: the counter wraps. *)
Lemma nifty_claims_wrap (n : nat) : ∀ w : World,
  - 2 ^ 31 ≤ nifty_init._count x w < 2 ^ 31 →
  ∃ w', run x (replicate n Claim) w = Ok tt w' ∧
        nifty_init._count x w'
          = int_wrap (nifty_init._count x w + Z.of_nat n).
Proof.
  induction n as [|n IH]; intros w Hrange.
  - exists w. split; [done|]. rewrite Z.add_0_r. by rewrite int_wrap_id.
  - destruct (nifty_initialize_spec x w) as (w1 & Hrun & Hc & _).
    destruct (IH w1) as (w' & Hrest & Hc').
    { rewrite Hc. unfold int_wrap.
      pose proof (Z.mod_pos_bound (nifty_init._count x w + 1 + 2 ^ 31)
                    (2 ^ 32)). lia. }
    exists w'. simpl. unfold bind. rewrite Hrun. split; [done|].
    rewrite Hc', Hc. unfold int_wrap. f_equal.
    replace ((nifty_init._count x w + 1 + 2 ^ 31) mod 2 ^ 32 - 2 ^ 31
             + Z.of_nat n + 2 ^ 31)
      with ((nifty_init._count x w + 1 + 2 ^ 31) mod 2 ^ 32 + Z.of_nat n)
      by lia.
    rewrite Zplus_mod_idemp_l. f_equal. lia.
Qed.
End NiftyTraces.

(** C2, as the code has it.  Take a sequential trace of [initialize()]
    and [destroy()] calls on a fresh [nifty_init] in which every
    [destroy()] has an outstanding [initialize()] to match and fewer than
    2^31 claims are outstanding at any time.  At every prefix the counter
    is the number of outstanding claims, never negative, and the storage
    holds an object exactly while the counter is positive.  The next
    [initialize()] adds one to the counter and constructs [T] exactly
    when the counter was 0 before; the next [destroy()] takes one off
    and runs the destructor exactly when the counter is 0 afterwards.
    So [T] is constructed once for every claim that finds the counter at
    0 (the first claim, and any claim made after the counter came back
    to 0) and destructed once for every release that brings it back to
    0: constructions exceed destructions by one while the counter is
    positive and equal them when it is 0. *)
Theorem nifty_init_counts_claims (x : nifty_init.t) (w : World)
    (pre post : list nifty_client.op) :
  let a := nifty_init.this x in
  nifty_client.state x 0 w →
  nifty_client.within (2 ^ 31) 0 (pre ++ post) = true →
  ∃ w',
    nifty_client.run x pre w = Ok tt w' ∧
    nifty_init._count x w' = nifty_client.depth_after 0 pre ∧
    0 ≤ nifty_init._count x w' ∧
    (is_Some (objects w' !! a) ↔ 0 < nifty_init._count x w') ∧
    constructions a (events w')
      = (constructions a (events w) + nifty_client.first_claims 0 pre)%nat ∧
    destructions a (events w')
      = (destructions a (events w) + nifty_client.last_releases 0 pre)%nat ∧
    nifty_client.first_claims 0 pre
      = (nifty_client.last_releases 0 pre
         + (if (0 <? nifty_init._count x w')%Z then 1 else 0))%nat ∧
    match post with
    | [] => True
    | nifty_client.Claim :: _ =>
        ∃ w'', nifty_init.initialize x w' = Ok tt w'' ∧
               nifty_init._count x w'' = nifty_init._count x w' + 1 ∧
               events w'' = events w' ++
                 (if nifty_init._count x w' =? 0 then [EvConstruct a] else [])
    | nifty_client.Release :: _ =>
        ∃ w'', nifty_init.destroy x w' = Ok tt w'' ∧
               nifty_init._count x w'' = nifty_init._count x w' - 1 ∧
               events w'' = events w' ++
                 (if nifty_init._count x w'' =? 0 then [EvDestruct a] else [])
    end.
Proof.
  intros a Hfresh Hin.
  apply within_app in Hin as [Hpre Hpost].
  destruct (nifty_run_within x pre 0 w) as (w' & Hrun & Hst & Hd & Hc & Hdes);
    [lia|done|done|].
  pose proof (first_claims_last_releases _ 0 pre (Z.le_refl 0) Hpre) as Hbal.
  simpl in Hbal. rewrite Nat.add_0_r in Hbal.
  pose proof Hst as [Hcount Hobj]. fold a in Hobj.
  exists w'. rewrite Hcount.
  split; [done|]. split; [done|]. split; [lia|]. split.
  { destruct (0 <? nifty_client.depth_after 0 pre) eqn:E.
    - apply Z.ltb_lt in E. done.
    - apply Z.ltb_ge in E. rewrite Hobj. split; [by intros [? ?]|lia]. }
  split; [done|]. split; [done|]. split; [done|].
  destruct post as [|[] post]; [done| |]; simpl in Hpost;
    apply andb_true_iff in Hpost as [H1 _]; apply Z.ltb_lt in H1.
  - destruct (nifty_claim_step x _ w' (proj1 Hd) H1 Hst)
      as (w'' & Hstep & [Hc'' _] & Hev).
    by exists w''.
  - destruct (nifty_release_step x _ w' H1 (proj2 Hd) Hst)
      as (w'' & Hstep & [Hc'' _] & Hev).
    exists w''. rewrite Hc''. split; [done|]. split; [done|]. rewrite Hev.
    destruct (nifty_client.depth_after 0 pre =? 1) eqn:E.
    + apply Z.eqb_eq in E. by rewrite E.
    + apply Z.eqb_neq in E.
      by replace (nifty_client.depth_after 0 pre - 1 =? 0) with false
        by (symmetry; apply Z.eqb_neq; lia).
Qed.

Lemma nifty_init_counts_claims_witness :
  let x := nifty_init.Make (Storage 5) in
  let pre := [nifty_client.Claim; nifty_client.Claim; nifty_client.Release] in
  let post := [nifty_client.Release] in
  nifty_client.state x 0 initial_world ∧
  nifty_client.within (2 ^ 31) 0 (pre ++ post) = true ∧
  ∃ w', nifty_client.run x pre initial_world = Ok tt w' ∧
        nifty_init._count x w' = 1 ∧
        constructions 5%nat (events w') = 1%nat ∧
        destructions 5%nat (events w') = 0%nat.
Proof.
  intros x pre post.
  assert (Hfresh : nifty_client.state x 0 initial_world)
    by (split; reflexivity).
  split; [exact Hfresh|]. split; [reflexivity|].
  destruct (nifty_init_counts_claims x initial_world pre post Hfresh eq_refl)
    as (w' & Hrun & Hcount & _ & _ & Hc & Hd & _).
  exists w'. split; [exact Hrun|]. split; [exact Hcount|].
  split; [exact Hc | exact Hd].
Defined.

(** C2, counterexample: claim, release, claim, release.  Every release
    has its matching claim, and [T] is constructed twice and destructed
    twice: the second claim finds the counter at 0 again. *)
Lemma nifty_init_reclaimed_constructs_again :
  let x := nifty_init.Make (Storage 1) in
  let ops := [nifty_client.Claim; nifty_client.Release;
              nifty_client.Claim; nifty_client.Release] in
  nifty_client.matched 0 ops = true ∧
  ∃ w', nifty_client.run x ops initial_world = Ok tt w' ∧
        events w' = [EvConstruct 1%nat; EvDestruct 1%nat;
                     EvConstruct 1%nat; EvDestruct 1%nat] ∧
        constructions 1%nat (events w') = 2%nat ∧
        destructions 1%nat (events w') = 2%nat.
Proof.
  intros x ops. split; [reflexivity|]. eexists.
  split; [vm_compute; reflexivity|]. by vm_compute.
Qed.

(** X7: within one period of use, from the first claim to the release
    that brings the counter back to 0 (with a claim outstanding at
    every moment in between), [T] is constructed exactly once and
    destructed exactly once. *)
Lemma nifty_init_one_period (x : nifty_init.t) (w : World)
    (mid : list nifty_client.op) :
  let a := nifty_init.this x in
  let ops := nifty_client.Claim :: mid ++ [nifty_client.Release] in
  nifty_client.state x 0 w →
  nifty_client.within (2 ^ 31) 0 ops = true →
  nifty_client.stays_claimed 1 mid = true →
  nifty_client.depth_after 1 mid = 1 →
  ∃ w', nifty_client.run x ops w = Ok tt w' ∧
        nifty_init._count x w' = 0 ∧
        constructions a (events w') = S (constructions a (events w)) ∧
        destructions a (events w') = S (destructions a (events w)).
Proof.
  intros a ops Hfresh Hin Hmid Hback.
  destruct (nifty_run_within x ops 0 w) as (w' & Hrun & Hst & Hd & Hc & Hdes);
    [lia|done|done|].
  destruct (stays_claimed_then_release mid 1 Hmid) as (Hf & Hl & Hdep).
  rewrite Hback in Hl, Hdep. simpl in Hl, Hdep.
  destruct Hst as [Hcount _]. exists w'. split; [done|].
  fold a in Hc, Hdes. rewrite Hcount, Hc, Hdes. subst ops.
  cbn [nifty_client.depth_after nifty_client.first_claims
       nifty_client.last_releases].
  change (0 + 1) with 1. rewrite Hf, Hl, Hdep. simpl. lia.
Qed.

(** The bound on the outstanding claims is needed: after 2^31 claims in a
    row the 32-bit counter is negative. *)
Lemma nifty_init_count_overflows :
  let x := nifty_init.Make (Storage 1) in
  let ops := replicate (Z.to_nat (2 ^ 31)) nifty_client.Claim in
  ∃ w', nifty_client.run x ops initial_world = Ok tt w' ∧
        nifty_init._count x w' = - 2 ^ 31.
Proof.
  intros x ops.
  destruct (nifty_claims_wrap x (Z.to_nat (2 ^ 31)) initial_world)
    as (w' & Hrun & Hc).
  { change (nifty_init._count x initial_world) with 0. lia. }
  exists w'. split; [exact Hrun|]. rewrite Hc.
  change (nifty_init._count x initial_world) with 0.
  rewrite Z2Nat.id by lia. reflexivity.
Qed.

(** C10: [reference()] hands out the reference to the storage without
    any check, whatever the build and whatever the counter: also at
    counter 0, before the first claim and after the last release, when
    the storage holds no object.  [get()] in a checked build asserts
    that the counter is positive, and fails there. *)
Theorem nifty_init_reference_unchecked (x : nifty_init.t) (w : World) :
  let a := nifty_init.this x in
  nifty_init.reference x w = Ok a w ∧
  nifty_init.get true x w =
    (if 0 <? nifty_init._count x w then Ok a w
     else Aborted AssertionFailed w) ∧
  nifty_init.get false x w = Ok a w ∧
  (objects initial_world !! a = None ∧
   nifty_init.reference x initial_world = Ok a initial_world ∧
   nifty_init.get true x initial_world
     = Aborted AssertionFailed initial_world) ∧
  ∃ w2,
    nifty_client.run x [nifty_client.Claim; nifty_client.Release]
      initial_world = Ok tt w2 ∧
    nifty_init._count x w2 = 0 ∧
    objects w2 !! a = None ∧
    nifty_init.reference x w2 = Ok a w2 ∧
    nifty_init.get true x w2 = Aborted AssertionFailed w2.
Proof.
  intros a.
  assert (Hget : ∀ w0, nifty_init.get true x w0 =
            (if 0 <? nifty_init._count x w0 then Ok a w0
             else Aborted AssertionFailed w0)).
  { intros w0. unfold nifty_init.get, bind, ATUM_LIFETIME_ASSERT.
    by destruct (0 <? nifty_init._count x w0). }
  split; [reflexivity|]. split; [apply Hget|].
  split; [reflexivity|]. split; [by repeat split|].
  destruct (nifty_run_within x [nifty_client.Claim; nifty_client.Release]
              0 initial_world) as (w2 & Hrun & [Hc Hobj] & _);
    [lia|reflexivity|by split|].
  simpl in Hc, Hobj. exists w2. split; [done|]. split; [done|].
  split; [done|]. split; [reflexivity|]. by rewrite Hget, Hc.
Qed.

(** ** scoped_initializer *)

Section ScopedInitializer.
Import scoped_initializer.

Lemma comma_fold_calls (Inits : list entity) : ∀ w l o,
  comma_fold Inits w = (l, o) →
  l `prefix_of` inits Inits ∧ (∀ w', o = Ok tt w' → l = inits Inits).
Proof.
  induction Inits as [|e rest IH]; intros w l o H.
  - injection H as <- <-. by split.
  - cbn [comma_fold inits map] in *. fold (inits rest).
    unfold g_bind, invoke in H.
    destruct (e_initialize e w) as [[] w1|w1|f w1].
    + destruct (comma_fold rest w1) as [l' o'] eqn:E.
      injection H as <- <-. destruct (IH _ _ _ E) as [Hpre Hall]. split.
      * by apply prefix_cons.
      * intros w' Ho. by rewrite (Hall w' Ho).
    + injection H as <- <-. split; [|done]. apply prefix_cons, prefix_nil.
    + injection H as <- <-. split; [|done]. apply prefix_cons, prefix_nil.
Qed.

Lemma assign_fold_calls (Inits : list entity) : ∀ w l o,
  assign_fold Inits w = (l, o) →
  l `prefix_of` destroys Inits ∧ (∀ v w', o = Ok v w' → l = destroys Inits).
Proof.
  induction Inits as [|e rest IH]; intros w l o H.
  - injection H as <- <-. by split.
  - cbn [assign_fold] in H. unfold destroys. cbn [rev]. rewrite map_app.
    fold (destroys rest). cbn [map].
    unfold g_bind at 1 in H.
    destruct (assign_fold rest w) as [l' [v w1|w1|f w1]] eqn:E;
      destruct (IH _ _ _ E) as [Hpre Hall].
    + rewrite (Hall v w1 eq_refl) in H. unfold g_bind, invoke, g_ret in H.
      destruct (e_destroy e w1) as [[] w2|w2|f w2];
        injection H as <- <-; rewrite ?app_nil_r; by split.
    + injection H as <- <-. split; [by apply prefix_app_r|done].
    + injection H as <- <-. split; [by apply prefix_app_r|done].
Qed.

Lemma ctor_calls (Inits : list entity) (w : World) l o :
  ctor Inits w = (l, o) →
  l `prefix_of` inits Inits ∧ (∀ w', o = Ok tt w' → l = inits Inits).
Proof. apply comma_fold_calls. Qed.

Lemma dtor_calls (Inits : list entity) (w : World) l o :
  dtor Inits w = (l, o) →
  l `prefix_of` destroys Inits ∧
  (∀ w', o = Ok tt w' → l = destroys Inits) ∧
  (∀ w', o ≠ Thrown w').
Proof.
  unfold dtor, noexcept, g_bind, g_ret. intros H.
  destruct (assign_fold Inits w) as [l' [v w1|w1|f w1]] eqn:E;
    destruct (assign_fold_calls _ _ _ _ E) as [Hpre Hall];
    injection H as <- <-; rewrite ?app_nil_r.
  - split; [done|]. split; [|done]. intros w' _. by apply (Hall v w1).
  - by repeat split.
  - by repeat split.
Qed.




End ScopedInitializer.



Section ScopedInitializerRaise.
Import scoped_initializer.

(** An exception from a later-declared entity passes the calls for the
    earlier-declared ones. *)
Lemma assign_fold_thrown (pre rest : list entity) (w w' : World) l :
  assign_fold rest w = (l, Thrown w') →
  assign_fold (pre ++ rest) w = (l, Thrown w').
Proof.
  intros H. induction pre as [|p pre IH]; [done|].
  cbn [app assign_fold]. unfold g_bind at 1. by rewrite IH.
Qed.

Lemma dtor_ok_inv (Inits : list entity) (w w' : World) l :
  dtor Inits w = (l, Ok tt w') → ∃ v, assign_fold Inits w = (l, Ok v w').
Proof.
  unfold dtor, noexcept, g_bind, g_ret.
  destruct (assign_fold Inits w) as [l' [v w1|w1|f w1]]; intros H;
    [|discriminate H|discriminate H].
  rewrite app_nil_r in H. injection H as <- <-. by exists v.
Qed.
End ScopedInitializerRaise.

(** C4, as the code has it: the destructor of the group is [noexcept]
    and catches nothing.  When the entities declared after [e] have been
    destroyed and [e.destroy()] raises, the exception reaches the
    [noexcept] boundary and the program is terminated: the calls made
    are the [destroy()] calls down to [e] and no more, so [destroy()] is
    not called on any entity declared before [e]. *)
Theorem scoped_initializer_destroy_raises
    (pre post : list scoped_initializer.entity)
    (e : scoped_initializer.entity) (w w1 w2 : World) :
  (scoped_initializer.dtor post w).2 = Ok tt w1 →
  scoped_initializer.e_destroy e w1 = Thrown w2 →
  scoped_initializer.dtor (pre ++ e :: post) w =
    (scoped_initializer.destroys post
       ++ [(scoped_initializer.Destroy, scoped_initializer.e_addr e)],
     Aborted Terminated w2) ∧
  length (scoped_initializer.dtor (pre ++ e :: post) w).1
    = S (length post).
Proof.
  intros Hpost He.
  destruct (scoped_initializer.dtor post w) as [l o] eqn:E.
  simpl in Hpost. subst o.
  destruct (dtor_calls _ _ _ _ E) as (_ & Hall & _).
  rewrite (Hall w1 eq_refl) in E. clear Hall.
  apply dtor_ok_inv in E as [v E].
  assert (Hthrow : scoped_initializer.assign_fold (e :: post) w =
            (scoped_initializer.destroys post
               ++ [(scoped_initializer.Destroy, scoped_initializer.e_addr e)],
             Thrown w2)).
  { cbn [scoped_initializer.assign_fold].
    unfold scoped_initializer.g_bind at 1. rewrite E.
    unfold scoped_initializer.g_bind, scoped_initializer.invoke.
    by rewrite He. }
  apply (assign_fold_thrown pre) in Hthrow.
  assert (Hd : scoped_initializer.dtor (pre ++ e :: post) w =
            (scoped_initializer.destroys post
               ++ [(scoped_initializer.Destroy, scoped_initializer.e_addr e)],
             Aborted Terminated w2)).
  { unfold scoped_initializer.dtor, scoped_initializer.noexcept.
    unfold scoped_initializer.g_bind at 1. by rewrite Hthrow. }
  split; [exact Hd|]. rewrite Hd. cbn [fst].
  unfold scoped_initializer.destroys.
  rewrite length_app, length_map, length_rev. simpl. lia.
Qed.

Lemma scoped_initializer_destroy_raises_witness :
  let A := scoped_initializer.of_manual true (manual_init.Make (Storage 1)) in
  let B := {| scoped_initializer.e_addr := 2%nat;
              scoped_initializer.e_initialize := ret tt;
              scoped_initializer.e_destroy := λ w, Thrown w |} in
  let C := scoped_initializer.of_nifty (nifty_init.Make (Storage 3)) in
  ∃ w w1,
    (scoped_initializer.ctor [A; B; C] initial_world).2 = Ok tt w ∧
    (scoped_initializer.dtor [C] w).2 = Ok tt w1 ∧
    scoped_initializer.e_destroy B w1 = Thrown w1 ∧
    scoped_initializer.dtor [A; B; C] w =
      ([(scoped_initializer.Destroy, 3%nat);
        (scoped_initializer.Destroy, 2%nat)], Aborted Terminated w1).
Proof.
  intros A B C. subst A B C. eexists _, _.
  split; [vm_compute; reflexivity|].
  split; [vm_compute; reflexivity|].
  split; [reflexivity|].
  refine (proj1 (scoped_initializer_destroy_raises
                   [_] [_] _ _ _ _ _ _)).
  - vm_compute. reflexivity.
  - reflexivity.
Defined.

(** C4, counterexample: a group over a [manual_init] at 1 and a user
    entity at 2 whose [destroy()] throws.  The destructor calls
    [destroy()] at 2 and the program is terminated; [destroy()] is never
    called at 1, whose object is still alive. *)
Lemma scoped_initializer_skips_remaining_destroy :
  let A := scoped_initializer.of_manual true (manual_init.Make (Storage 1)) in
  let B := {| scoped_initializer.e_addr := 2%nat;
              scoped_initializer.e_initialize := ret tt;
              scoped_initializer.e_destroy := λ w, Thrown w |} in
  ∃ w,
    scoped_initializer.ctor [A; B] initial_world =
      ([(scoped_initializer.Initialize, 1%nat);
        (scoped_initializer.Initialize, 2%nat)], Ok tt w) ∧
    scoped_initializer.dtor [A; B] w =
      ([(scoped_initializer.Destroy, 2%nat)], Aborted Terminated w) ∧
    ((scoped_initializer.Destroy, 1%nat)
       ∉ fst (scoped_initializer.dtor [A; B] w)) ∧
    objects w !! 1%nat = Some 0%nat ∧
    events w = [EvConstruct 1%nat].
Proof.
  intros A B. subst A B. eexists.
  split; [vm_compute; reflexivity|].
  split; [vm_compute; reflexivity|].
  split.
  - intros Hin. vm_compute in Hin.
    apply list_elem_of_singleton in Hin. discriminate Hin.
  - split; vm_compute; reflexivity.
Qed.

(** ** Concurrent first use of a lazy_init *)

Section Threads.
Import threads.
Variable checked : bool.
Variable x : lazy_init.t.
Let k : instantiation := lazy_init.class x.
Let a : addr := lazy_init.this x.

















End Threads.



(** * Further properties of the wrappers *)

Lemma sequence_app_inv {A} (ms1 ms2 : list (M A)) (w w' : World)
    (rs : list A) :
  sequence (ms1 ++ ms2) w = Ok rs w' →
  ∃ rs1 w1 rs2,
    sequence ms1 w = Ok rs1 w1 ∧ sequence ms2 w1 = Ok rs2 w' ∧
    rs = rs1 ++ rs2.
Proof.
  revert w rs. induction ms1 as [|m ms1 IH]; intros w rs H.
  - exists [], w, rs. by repeat split.
  - simpl in H. unfold bind at 1 in H.
    destruct (m w) as [r w0| |] eqn:Hm; [|done|done].
    unfold bind at 1 in H.
    destruct (sequence (ms1 ++ ms2) w0) as [rs0 w0'| |] eqn:Hrest;
      [|done|done].
    injection H as <- <-.
    destruct (IH _ _ Hrest) as (rs1 & w1 & rs2 & H1 & H2 & ->).
    exists (r :: rs1), w1, rs2. split; [|by split].
    simpl. unfold bind at 1. rewrite Hm. unfold bind at 1. by rewrite H1.
Qed.

(** ** manual_init: what the lifetime check sees *)

Section ManualClient.
Import manual_client.
Variable x : manual_init.t.
Let a : addr := manual_init.this x.

Lemma tracked_step (o : op) (w w' : World) (r : option ref) :
  tracked x w → do_op true x o w = Ok r w' →
  tracked x w' ∧ (o = Get → r = Some a ∧ w' = w ∧ is_Some (objects w !! a)).
Proof.
  unfold tracked. fold a. intros Htr Hop. destruct o; simpl in Hop.
  - destruct (manual_initialize_spec x true w) as (w1 & Hrun & Hobj & _ & Hf & _).
    unfold bind in Hop. rewrite Hrun in Hop. injection Hop as <- <-.
    split; [|done]. fold a in Hobj. rewrite Hobj, (Hf eq_refl).
    split; [by eexists|done].
  - unfold bind in Hop.
    destruct (objects w !! a) as [o|] eqn:Hobj.
    + destruct (manual_destroy_live x true w o Hobj)
        as (w1 & Hrun & Hgone & _ & Hf).
      rewrite Hrun in Hop. injection Hop as <- <-.
      split; [|done]. fold a in Hgone. rewrite Hgone, (Hf eq_refl).
      split; [done|by intros [? ?]].
    + unfold manual_init.destroy, bind, destruct_at, storage_ops.get in Hop.
      unfold a, manual_init.this in Hobj. by rewrite Hobj in Hop.
  - unfold bind in Hop. rewrite manual_get_checked in Hop.
    destruct (manual_init._initialized x w) eqn:Hf; [|done].
    injection Hop as <- <-. split; [by rewrite Hf|].
    intros _. split; [done|]. split; [done|]. by apply Htr.
Qed.

Lemma tracked_run (ops : list op) : ∀ (w w' : World) rs,
  tracked x w → run true x ops w = Ok rs w' → tracked x w'.
Proof.
  unfold run. induction ops as [|o ops IH]; intros w w' rs Htr H.
  - by injection H as <- <-.
  - simpl in H. unfold bind at 1 in H.
    destruct (do_op true x o w) as [r w1| |] eqn:Hop; [|done|done].
    unfold bind at 1 in H.
    destruct (sequence (map (do_op true x) ops) w1) as [rs1 w2| |] eqn:Hrest;
      [|done|done].
    injection H as <- <-.
    destruct (tracked_step o w w1 r Htr Hop) as [Htr1 _]. by eapply IH.
Qed.

Lemma same_but_flags_step (o : op) (w wu w' : World) (r : option ref) :
  same_but_flags w wu → do_op true x o w = Ok r w' →
  ∃ wu', do_op false x o wu = Ok r wu' ∧ same_but_flags w' wu'.
Proof.
  intros (Ho & Hs & Hc & He) Hop. destruct o; simpl in *.
  - unfold manual_init.initialize, bind, init in *. simpl in *.
    injection Hop as <- <-. eexists. split; [done|].
    unfold same_but_flags. simpl. by rewrite Ho, Hs, Hc, He.
  - unfold manual_init.destroy, bind, destruct_at in *. rewrite <- Ho.
    destruct (objects w !! storage_ops.get (manual_init._storage x));
      [|done].
    simpl in *. injection Hop as <- <-. eexists. split; [done|].
    unfold same_but_flags. simpl. by rewrite Ho, Hs, Hc, He.
  - unfold bind in Hop. rewrite manual_get_checked in Hop.
    destruct (manual_init._initialized x w); [|done].
    injection Hop as <- <-. exists wu. by split.
Qed.
End ManualClient.

(** X1: in a checked build the flag [_initialized] follows the object.
    Whatever calls of [initialize()], [destroy()] and [get()] are made
    on an instance, in any order, if they all return then the flag
    again says whether the storage holds an object, and every [get()]
    among them found a live object in the storage it returned. *)
Theorem manual_init_checked_get_sound (x : manual_init.t)
    (pre post : list manual_client.op) (w w' : World)
    (rs : list (option ref)) :
  manual_client.tracked x w →
  manual_client.run true x (pre ++ manual_client.Get :: post) w = Ok rs w' →
  manual_client.tracked x w' ∧
  ∃ rs1 w1 o,
    manual_client.run true x pre w = Ok rs1 w1 ∧
    objects w1 !! manual_init.this x = Some o ∧
    manual_init.get true x w1 = Ok (manual_init.this x) w1 ∧
    rs !! length pre = Some (Some (manual_init.this x)).
Proof.
  intros Htr Hrun. split; [by eapply tracked_run|].
  unfold manual_client.run in *. rewrite map_app in Hrun.
  apply sequence_app_inv in Hrun as (rs1 & w1 & rs2 & H1 & H2 & ->).
  pose proof (tracked_run x pre w w1 rs1 Htr H1) as Htr1.
  cbn [map sequence] in H2. unfold bind at 1 in H2.
  destruct (manual_client.do_op true x manual_client.Get w1)
    as [r w2| |] eqn:Hget; [|done|done].
  destruct (tracked_step x _ _ _ _ Htr1 Hget) as [_ Hg].
  destruct (Hg eq_refl) as (-> & -> & [o Ho]).
  unfold bind at 1 in H2.
  destruct (sequence (map (manual_client.do_op true x) post) w1)
    as [rs3 w3| |]; [|done|done].
  injection H2 as <- <-.
  exists rs1, w1, o. split; [done|]. split; [done|]. split.
  - simpl in Hget. unfold bind in Hget.
    destruct (manual_init.get true x w1) as [r' w'| |]; [|done|done].
    by injection Hget as -> ->.
  - assert (Hlen : length rs1 = length pre).
    { clear -H1. revert w rs1 H1. induction pre as [|o' pre IH];
        intros w rs1 H1; [by injection H1 as <- <-|].
      simpl in H1. unfold bind at 1 in H1.
      destruct (manual_client.do_op true x o' w) as [r0 w0| |]; [|done|done].
      unfold bind at 1 in H1.
      destruct (sequence (map (manual_client.do_op true x) pre) w0)
        as [rs0 w0'| |] eqn:E; [|done|done].
      injection H1 as <- <-. simpl. f_equal. by eapply IH. }
    rewrite <- Hlen. by rewrite list_lookup_middle.
Qed.

Lemma manual_init_checked_get_sound_witness :
  let x := manual_init.Make (Storage 4) in
  let pre := [manual_client.Initialize; manual_client.Destroy;
              manual_client.Initialize] in
  manual_client.tracked x initial_world ∧
  ∃ rs w' w1,
    manual_client.run true x (pre ++ [manual_client.Get]) initial_world
      = Ok rs w' ∧
    manual_client.run true x pre initial_world = Ok [None; None; None] w1 ∧
    objects w1 !! 4%nat = Some 2%nat.
Proof.
  intros x pre.
  assert (Htr : manual_client.tracked x initial_world).
  { split; [discriminate|]. by intros [? ?]. }
  split; [exact Htr|].
  assert (Hrun : manual_client.run true x (pre ++ [manual_client.Get])
                   initial_world
                 = Ok [None; None; None; Some 4%nat]
                      (set_initialized 4 true
                         {| objects := {[4%nat := 2%nat]}; statics := ∅;
                            initialized := ∅; counts := ∅;
                            events := [EvConstruct 4%nat; EvDestruct 4%nat;
                                       EvConstruct 4%nat] |})).
  { vm_compute. reflexivity. }
  destruct (manual_init_checked_get_sound x pre [] initial_world _ _ Htr Hrun)
    as (_ & rs1 & w1 & o & Hpre & Hobj & _ & _).
  eexists _, _, w1. split; [exact Hrun|].
  assert (Hpre' : manual_client.run true x pre initial_world
                  = Ok [None; None; None]
                       (set_initialized 4 true
                          {| objects := {[4%nat := 2%nat]}; statics := ∅;
                             initialized := ∅; counts := ∅;
                             events := [EvConstruct 4%nat; EvDestruct 4%nat;
                                        EvConstruct 4%nat] |})).
  { vm_compute. reflexivity. }
  rewrite Hpre' in Hpre. injection Hpre as <- <-.
  split; [exact Hpre'|]. vm_compute. reflexivity.
Defined.

(** X2: the lifetime check only watches.  If a sequence of calls on an
    instance returns in a checked build, the same calls return in an
    unchecked build with the same results, the same objects and the
    same history: the two final states differ at most in the
    [_initialized] members. *)
Theorem manual_init_check_is_transparent (x : manual_init.t)
    (ops : list manual_client.op) (w wu w' : World)
    (rs : list (option ref)) :
  manual_client.same_but_flags w wu →
  manual_client.run true x ops w = Ok rs w' →
  ∃ wu', manual_client.run false x ops wu = Ok rs wu' ∧
         manual_client.same_but_flags w' wu'.
Proof.
  unfold manual_client.run. revert w wu rs.
  induction ops as [|o ops IH]; intros w wu rs Hsame H.
  - injection H as <- <-. by exists wu.
  - cbn [map sequence] in *. unfold bind at 1 in H.
    destruct (manual_client.do_op true x o w) as [r w1| |] eqn:Hop;
      [|done|done].
    unfold bind at 1 in H.
    destruct (sequence (map (manual_client.do_op true x) ops) w1)
      as [rs1 w2| |] eqn:Hrest; [|done|done].
    injection H as <- <-.
    destruct (same_but_flags_step x o w wu w1 r Hsame Hop)
      as (wu1 & Hopu & Hsame1).
    destruct (IH w1 wu1 rs1 Hsame1 Hrest) as (wu' & Hrestu & Hsame').
    exists wu'. split; [|done].
    unfold bind at 1. rewrite Hopu. unfold bind at 1. by rewrite Hrestu.
Qed.

Lemma manual_init_check_is_transparent_witness :
  let x := manual_init.Make (Storage 4) in
  let ops := [manual_client.Initialize; manual_client.Get;
              manual_client.Destroy] in
  manual_client.same_but_flags initial_world initial_world ∧
  ∃ w' wu',
    manual_client.run true x ops initial_world
      = Ok [None; Some 4%nat; None] w' ∧
    manual_client.run false x ops initial_world
      = Ok [None; Some 4%nat; None] wu' ∧
    events wu' = [EvConstruct 4%nat; EvDestruct 4%nat].
Proof.
  intros x ops.
  assert (Hsame : manual_client.same_but_flags initial_world initial_world)
    by done.
  split; [exact Hsame|].
  assert (Hrun : manual_client.run true x ops initial_world
                 = Ok [None; Some 4%nat; None]
                      (set_initialized 4 false
                         {| objects := ∅; statics := ∅;
                            initialized := ∅; counts := ∅;
                            events := [EvConstruct 4%nat;
                                       EvDestruct 4%nat] |})).
  { vm_compute. reflexivity. }
  destruct (manual_init_check_is_transparent x ops _ _ _ _ Hsame Hrun)
    as (wu' & Hrunu & (_ & _ & _ & Hev)).
  eexists _, wu'. split; [exact Hrun|]. split; [exact Hrunu|].
  by rewrite <- Hev.
Defined.

(** X3: [destroy()] checks nothing either.  Called on an instance whose
    storage holds no object it is a destructor call on dead storage
    (undefined), in checked and unchecked builds alike, not an
    assertion failure; so is the second of two [destroy()] calls in a
    row, which finds [_initialized] already cleared. *)
Theorem manual_init_destroy_twice (checked : bool) (x : manual_init.t)
    (w : World) :
  let a := manual_init.this x in
  (objects w !! a = None →
   manual_init.destroy checked x w = Aborted Undefined w) ∧
  ∃ w1 w2,
    manual_init.initialize checked x w = Ok tt w1 ∧
    manual_init.destroy checked x w1 = Ok tt w2 ∧
    events w2 = events w ++ [EvConstruct a; EvDestruct a] ∧
    (checked = true → manual_init._initialized x w2 = false) ∧
    manual_init.destroy checked x w2 = Aborted Undefined w2.
Proof.
  intros a.
  assert (Hdead : ∀ w0, objects w0 !! a = None →
            manual_init.destroy checked x w0 = Aborted Undefined w0).
  { intros w0 Hnone.
    unfold manual_init.destroy, bind, destruct_at, storage_ops.get.
    unfold a, manual_init.this in Hnone. by rewrite Hnone. }
  split; [apply Hdead|].
  destruct (manual_initialize_spec x checked w) as (w1 & H1 & Ho1 & He1 & _).
  destruct (manual_destroy_live x checked w1 _ Ho1) as (w2 & H2 & Ho2 & He2 & Hf2).
  exists w1, w2. split; [done|]. split; [done|].
  split; [by rewrite He2, He1, <- app_assoc|]. split; [done|].
  by apply Hdead.
Qed.

Lemma manual_init_destroy_twice_witness :
  let x := manual_init.Make (Storage 4) in
  objects initial_world !! manual_init.this x = None ∧
  manual_init.destroy true x initial_world = Aborted Undefined initial_world.
Proof.
  intros x. split; [reflexivity|].
  apply (proj1 (manual_init_destroy_twice true x initial_world)).
  reflexivity.
Defined.

(** ** nifty_init: unmatched calls and the end of the counter *)

Section NiftyAnyTrace.
Import nifty_client.
Variable x : nifty_init.t.
Let a : addr := nifty_init.this x.

Lemma nifty_claim_any (d : Z) (w : World) :
  - 2 ^ 31 ≤ d → d + 1 < 2 ^ 31 → state x d w →
  ∃ w', nifty_init.initialize x w = Ok tt w' ∧
        state x (d + 1) w' ∧
        events w' = events w ++ (if d =? 0 then [EvConstruct a] else []).
Proof.
  unfold state. fold a. intros Hd Hlim [Hc Hobj].
  destruct (nifty_initialize_spec x w) as (w' & Hrun & Hc' & Hev & Ho).
  rewrite Hc in *. exists w'. split; [done|]. split; [|done].
  split; [rewrite Hc'; apply int_wrap_id; lia|].
  fold a in Ho. rewrite Ho. destruct (d =? 0) eqn:E.
  - apply Z.eqb_eq in E. rewrite E. simpl. rewrite lookup_insert_eq.
    by eexists.
  - apply Z.eqb_neq in E. destruct (0 <? d) eqn:E1.
    + apply Z.ltb_lt in E1.
      by replace (0 <? d + 1) with true by (symmetry; apply Z.ltb_lt; lia).
    + apply Z.ltb_ge in E1.
      by replace (0 <? d + 1) with false by (symmetry; apply Z.ltb_ge; lia).
Qed.

Lemma nifty_release_any (d : Z) (w : World) :
  - 2 ^ 31 ≤ d - 1 → d < 2 ^ 31 → state x d w →
  ∃ w', nifty_init.destroy x w = Ok tt w' ∧
        state x (d - 1) w' ∧
        events w' = events w ++ (if d =? 1 then [EvDestruct a] else []).
Proof.
  unfold state. fold a. intros Hd Hlim [Hc Hobj].
  pose proof (nifty_destroy_spec x w) as H. simpl in H. rewrite Hc in H.
  rewrite (int_wrap_id (d - 1)) in H by lia. fold a in H.
  destruct (d =? 1) eqn:E.
  - apply Z.eqb_eq in E. rewrite E in H, Hobj |- *. simpl in H, Hobj.
    destruct Hobj as [o Hobj]. rewrite Hobj in H.
    destruct H as (w' & Hrun & Hc' & Hev & Ho). exists w'.
    split; [done|]. split; [|done]. split; [done|]. simpl.
    rewrite Ho. apply lookup_delete_eq.
  - apply Z.eqb_neq in E.
    replace (d - 1 =? 0) with false in H by (symmetry; apply Z.eqb_neq; lia).
    destruct H as (w' & Hrun & Hc' & Hev & Ho). exists w'.
    split; [done|]. split; [|by rewrite Hev, app_nil_r]. split; [done|].
    rewrite Ho. destruct (0 <? d) eqn:E1.
    + apply Z.ltb_lt in E1.
      by replace (0 <? d - 1) with true by (symmetry; apply Z.ltb_lt; lia).
    + apply Z.ltb_ge in E1.
      by replace (0 <? d - 1) with false by (symmetry; apply Z.ltb_ge; lia).
Qed.

Lemma nifty_run_any (ops : list op) : ∀ (d : Z) (w : World),
  - 2 ^ 31 ≤ d - Z.of_nat (length ops) →
  d + Z.of_nat (length ops) < 2 ^ 31 →
  state x d w →
  ∃ w', run x ops w = Ok tt w' ∧
        state x (depth_after d ops) w' ∧
        constructions a (events w')
          = (constructions a (events w) + first_claims d ops)%nat ∧
        destructions a (events w')
          = (destructions a (events w) + last_releases d ops)%nat.
Proof.
  induction ops as [|o ops IH]; intros d w Hlo Hhi Hst.
  - exists w. split; [done|]. split; [done|].
    cbn [first_claims last_releases]. by rewrite !Nat.add_0_r.
  - cbn [length] in Hlo, Hhi. destruct o.
    + destruct (nifty_claim_any d w) as (w1 & Hrun & Hst1 & Hev);
        [lia|lia|done|].
      destruct (IH (d + 1) w1) as (w' & Hrest & Hst' & Hc & Hdes);
        [lia|lia|done|].
      exists w'. simpl. unfold bind. rewrite Hrun.
      split; [done|]. split; [done|].
      rewrite Hc, Hdes, Hev, constructions_app, destructions_app.
      destruct (d =? 0); simpl.
      * fold a. rewrite constructions_construct, destructions_construct. lia.
      * unfold constructions, destructions. simpl. lia.
    + destruct (nifty_release_any d w) as (w1 & Hrun & Hst1 & Hev);
        [lia|lia|done|].
      destruct (IH (d - 1) w1) as (w' & Hrest & Hst' & Hc & Hdes);
        [lia|lia|done|].
      exists w'. simpl. unfold bind. rewrite Hrun.
      split; [done|]. split; [done|].
      rewrite Hc, Hdes, Hev, constructions_app, destructions_app.
      destruct (d =? 1); simpl.
      * fold a. rewrite constructions_destruct, destructions_destruct. lia.
      * unfold constructions, destructions. simpl. lia.
Qed.

(** Releases, and then claims, made while the counter is not positive
    leave the history alone. *)
Lemma nifty_releases_below (k : nat) : ∀ (d : Z) (w : World),
  d ≤ 0 → - 2 ^ 31 ≤ d - Z.of_nat k → state x d w →
  ∃ w', run x (replicate k Release) w = Ok tt w' ∧
        state x (d - Z.of_nat k) w' ∧ events w' = events w.
Proof.
  induction k as [|k IH]; intros d w Hd Hlo Hst.
  - exists w. split; [done|]. split; [|done]. by rewrite Z.sub_0_r.
  - destruct (nifty_release_any d w) as (w1 & Hrun & Hst1 & Hev);
      [lia|lia|done|].
    replace (d =? 1) with false in Hev by (symmetry; apply Z.eqb_neq; lia).
    rewrite app_nil_r in Hev.
    destruct (IH (d - 1) w1) as (w' & Hrest & Hst' & Hev'); [lia|lia|done|].
    exists w'. simpl. unfold bind. rewrite Hrun. split; [done|].
    split; [|by rewrite Hev', Hev].
    by replace (d - Z.of_nat (S k)) with (d - 1 - Z.of_nat k) by lia.
Qed.

Lemma nifty_claims_below (k : nat) : ∀ (d : Z) (w : World),
  d + Z.of_nat k ≤ 0 → - 2 ^ 31 ≤ d → state x d w →
  ∃ w', run x (replicate k Claim) w = Ok tt w' ∧
        state x (d + Z.of_nat k) w' ∧ events w' = events w.
Proof.
  induction k as [|k IH]; intros d w Hd Hlo Hst.
  - exists w. split; [done|]. split; [|done]. by rewrite Z.add_0_r.
  - destruct (nifty_claim_any d w) as (w1 & Hrun & Hst1 & Hev);
      [lia|lia|done|].
    replace (d =? 0) with false in Hev by (symmetry; apply Z.eqb_neq; lia).
    rewrite app_nil_r in Hev.
    destruct (IH (d + 1) w1) as (w' & Hrest & Hst' & Hev'); [lia|lia|done|].
    exists w'. simpl. unfold bind. rewrite Hrun. split; [done|].
    split; [|by rewrite Hev', Hev].
    by replace (d + Z.of_nat (S k)) with (d + 1 + Z.of_nat k) by lia.
Qed.

End NiftyAnyTrace.

Section ClaimsInARow.
Import nifty_client.

Lemma within_claims (limit : Z) (n : nat) : ∀ d : Z,
  d + Z.of_nat n < limit →
  within limit d (replicate n Claim) = true ∧
  depth_after d (replicate n Claim) = d + Z.of_nat n.
Proof.
  induction n as [|n IH]; intros d H; [split; [done|simpl; lia]|].
  destruct (IH (d + 1)) as [Hin Hdep]; [lia|]. simpl. rewrite Hin, Hdep.
  split; [|lia]. apply andb_true_iff. split; [|done]. apply Z.ltb_lt. lia.
Qed.

Lemma first_claims_claims (n : nat) : ∀ d : Z,
  0 < d → first_claims d (replicate n Claim) = O.
Proof.
  induction n as [|n IH]; intros d H; [done|]. simpl.
  rewrite IH by lia.
  by replace (d =? 0) with false by (symmetry; apply Z.eqb_neq; lia).
Qed.

Lemma nifty_run_app (x : nifty_init.t) (ops1 ops2 : list op) (w w1 : World) :
  run x ops1 w = Ok tt w1 → run x (ops1 ++ ops2) w = run x ops2 w1.
Proof.
  revert w. induction ops1 as [|o ops1 IH]; intros w H.
  - by injection H as ->.
  - simpl in *. unfold bind in *.
    destruct (do_op x o w) as [[] u| |]; [|done|done]. by apply IH.
Qed.
End ClaimsInARow.

(** X4: the counter needs no matching.  For any trace of fewer than
    2^31 [initialize()] and [destroy()] calls on a fresh [nifty_init],
    matched or not, every call returns, the counter is the number of
    claims minus the number of releases, possibly negative, and the
    storage holds an object exactly when the counter is positive; so in
    a checked build [get()] returns exactly when there is an object to
    refer to. *)
Theorem nifty_init_any_trace (x : nifty_init.t) (ops : list nifty_client.op)
    (w : World) :
  let a := nifty_init.this x in
  nifty_client.state x 0 w →
  Z.of_nat (length ops) < 2 ^ 31 →
  ∃ w',
    nifty_client.run x ops w = Ok tt w' ∧
    nifty_init._count x w' = nifty_client.depth_after 0 ops ∧
    (is_Some (objects w' !! a) ↔ 0 < nifty_init._count x w') ∧
    constructions a (events w')
      = (constructions a (events w) + nifty_client.first_claims 0 ops)%nat ∧
    destructions a (events w')
      = (destructions a (events w) + nifty_client.last_releases 0 ops)%nat ∧
    (is_Some (objects w' !! a) ↔ nifty_init.get true x w' = Ok a w').
Proof.
  intros a Hfresh Hlen.
  destruct (nifty_run_any x ops 0 w) as (w' & Hrun & [Hc Hobj] & Hcon & Hdes);
    [lia|lia|done|].
  assert (Hlive : is_Some (objects w' !! a) ↔ 0 < nifty_init._count x w').
  { rewrite Hc. fold a in Hobj.
    destruct (0 <? nifty_client.depth_after 0 ops) eqn:E.
    - apply Z.ltb_lt in E. done.
    - apply Z.ltb_ge in E. rewrite Hobj. split; [by intros [? ?]|lia]. }
  exists w'. split; [done|]. split; [done|]. split; [done|].
  split; [done|]. split; [done|].
  rewrite Hlive. unfold nifty_init.get, bind, ATUM_LIFETIME_ASSERT.
  destruct (0 <? nifty_init._count x w') eqn:E.
  - apply Z.ltb_lt in E. done.
  - apply Z.ltb_ge in E. split; [lia|done].
Qed.

Lemma nifty_init_any_trace_witness :
  let x := nifty_init.Make (Storage 5) in
  let ops := [nifty_client.Release; nifty_client.Claim; nifty_client.Claim] in
  nifty_client.state x 0 initial_world ∧
  Z.of_nat (length ops) < 2 ^ 31 ∧
  ∃ w', nifty_client.run x ops initial_world = Ok tt w' ∧
        nifty_init._count x w' = 1 ∧
        constructions 5%nat (events w') = 1%nat.
Proof.
  intros x ops.
  assert (Hfresh : nifty_client.state x 0 initial_world)
    by (split; reflexivity).
  assert (Hlen : Z.of_nat (length ops) < 2 ^ 31) by (simpl; lia).
  split; [exact Hfresh|]. split; [exact Hlen|].
  destruct (nifty_init_any_trace x ops initial_world Hfresh Hlen)
    as (w' & Hrun & Hcount & _ & Hc & _).
  exists w'. split; [exact Hrun|]. split; [exact Hcount | exact Hc].
Defined.

(** X5: a release without a claim is not an error; it puts the counter
    below zero.  After [k] unmatched releases on a fresh instance the
    next [k] claims construct nothing (each finds a counter that is not
    0) and leave the counter at 0 with no object; only the claim after
    those constructs [T]. *)
Theorem nifty_init_unmatched_release_delays (x : nifty_init.t) (k : nat)
    (w : World) :
  let a := nifty_init.this x in
  nifty_client.state x 0 w →
  Z.of_nat k ≤ 2 ^ 31 →
  ∃ w1 w2 w3,
    nifty_client.run x (replicate k nifty_client.Release) w = Ok tt w1 ∧
    nifty_init._count x w1 = - Z.of_nat k ∧ events w1 = events w ∧
    nifty_client.run x (replicate k nifty_client.Claim) w1 = Ok tt w2 ∧
    nifty_init._count x w2 = 0 ∧ events w2 = events w ∧
    objects w2 !! a = None ∧
    nifty_init.initialize x w2 = Ok tt w3 ∧
    events w3 = events w ++ [EvConstruct a] ∧
    nifty_init._count x w3 = 1.
Proof.
  intros a Hfresh Hk.
  destruct (nifty_releases_below x k 0 w) as (w1 & Hrel & Hst1 & Hev1);
    [lia|lia|done|].
  destruct (nifty_claims_below x k (0 - Z.of_nat k) w1)
    as (w2 & Hcl & Hst2 & Hev2); [lia|lia|done|].
  replace (0 - Z.of_nat k + Z.of_nat k) with 0 in Hst2 by lia.
  destruct (nifty_claim_any x 0 w2) as (w3 & Hinit & Hst3 & Hev3);
    [lia|lia|done|].
  destruct Hst1 as [Hc1 _]. pose proof Hst2 as [Hc2 Ho2].
  destruct Hst3 as [Hc3 _]. simpl in Ho2, Hev3.
  exists w1, w2, w3. split; [done|]. split; [rewrite Hc1; lia|].
  split; [done|]. split; [done|]. split; [done|].
  split; [by rewrite Hev2, Hev1|]. split; [done|]. split; [done|].
  split; [by rewrite Hev3, Hev2, Hev1|done].
Qed.

Lemma nifty_init_unmatched_release_delays_witness :
  let x := nifty_init.Make (Storage 5) in
  nifty_client.state x 0 initial_world ∧ Z.of_nat 2 ≤ 2 ^ 31 ∧
  ∃ w2, nifty_client.run x
          [nifty_client.Release; nifty_client.Release;
           nifty_client.Claim; nifty_client.Claim] initial_world
        = Ok tt w2 ∧ events w2 = [].
Proof.
  intros x.
  assert (Hfresh : nifty_client.state x 0 initial_world)
    by (split; reflexivity).
  assert (Hk : Z.of_nat 2 ≤ 2 ^ 31) by (simpl; lia).
  split; [exact Hfresh|]. split; [exact Hk|].
  destruct (nifty_init_unmatched_release_delays x 2 initial_world Hfresh Hk)
    as (w1 & w2 & _ & Hrel & _ & _ & Hcl & _ & Hev & _).
  exists w2. split; [|exact Hev].
  change [nifty_client.Release; nifty_client.Release;
          nifty_client.Claim; nifty_client.Claim]
    with (replicate 2 nifty_client.Release
          ++ replicate 2 nifty_client.Claim).
  by rewrite (nifty_run_app x _ _ _ w1 Hrel).
Defined.

(** X6: the counter is an [int].  The claim number 2^31 on a fresh
    instance wraps it to -2^31: [T] has been constructed once and is
    alive, the counter is negative, and [get()] in a checked build
    fails its assertion although 2^31 claims are outstanding. *)
Theorem nifty_init_counter_overflow (x : nifty_init.t) (w : World) :
  let a := nifty_init.this x in
  nifty_client.state x 0 w →
  ∃ w',
    nifty_client.run x (replicate (Z.to_nat (2 ^ 31)) nifty_client.Claim) w
      = Ok tt w' ∧
    nifty_init._count x w' = - 2 ^ 31 ∧
    is_Some (objects w' !! a) ∧
    constructions a (events w') = S (constructions a (events w)) ∧
    nifty_init.get true x w' = Aborted AssertionFailed w' ∧
    nifty_init.get false x w' = Ok a w'.
Proof.
  intros a Hfresh.
  assert (Hex : ∃ n : nat, Z.of_nat n = 2 ^ 31 - 1 ∧
                           Z.to_nat (2 ^ 31) = (n + 1)%nat).
  { exists (Z.to_nat (2 ^ 31 - 1)). lia. }
  destruct Hex as (n & Hn & Hsucc).
  assert (Hsplit : replicate (Z.to_nat (2 ^ 31)) nifty_client.Claim
                   = replicate n nifty_client.Claim ++ [nifty_client.Claim]).
  { by rewrite Hsucc, replicate_add. }
  destruct (within_claims (2 ^ 31) n 0) as [Hin Hdep]; [lia|].
  destruct (nifty_run_within x (replicate n nifty_client.Claim) 0 w)
    as (w1 & Hrun & [Hc Hobj] & _ & Hcon & _); [lia|done|done|].
  rewrite Hdep, Hn in Hc, Hobj. fold a in Hobj.
  replace (0 <? 0 + (2 ^ 31 - 1)) with true in Hobj by done.
  destruct (nifty_initialize_spec x w1) as (w' & Hinit & Hc' & Hev & Ho).
  rewrite Hc in Hc', Hev, Ho. fold a in Ho.
  replace (0 + (2 ^ 31 - 1) =? 0) with false in Hev, Ho by done.
  rewrite app_nil_r in Hev.
  assert (Hcount : nifty_init._count x w' = - 2 ^ 31) by (by rewrite Hc').
  exists w'. split.
  { rewrite Hsplit, (nifty_run_app x _ _ w w1 Hrun). simpl. unfold bind.
    by rewrite Hinit. }
  split; [done|]. split; [by rewrite Ho|]. split.
  { fold a in Hcon. rewrite Hev, Hcon. destruct n as [|n']; [lia|].
    simpl. rewrite first_claims_claims by lia. lia. }
  split; [|done].
  unfold nifty_init.get, bind, ATUM_LIFETIME_ASSERT. by rewrite Hcount.
Qed.

Lemma nifty_init_counter_overflow_witness :
  let x := nifty_init.Make (Storage 5) in
  nifty_client.state x 0 initial_world ∧
  ∃ w', nifty_client.run x
          (replicate (Z.to_nat (2 ^ 31)) nifty_client.Claim) initial_world
        = Ok tt w' ∧
        nifty_init._count x w' = - 2 ^ 31.
Proof.
  intros x.
  assert (Hfresh : nifty_client.state x 0 initial_world)
    by (split; reflexivity).
  split; [exact Hfresh|].
  destruct (nifty_init_counter_overflow x initial_world Hfresh)
    as (w' & Hrun & Hc & _).
  exists w'. split; [exact Hrun | exact Hc].
Defined.

Lemma nifty_init_one_period_witness :
  let x := nifty_init.Make (Storage 5) in
  let mid := [nifty_client.Claim; nifty_client.Claim; nifty_client.Release;
              nifty_client.Release] in
  nifty_client.state x 0 initial_world ∧
  ∃ w', nifty_client.run x
          (nifty_client.Claim :: mid ++ [nifty_client.Release]) initial_world
        = Ok tt w' ∧
        constructions 5%nat (events w') = 1%nat ∧
        destructions 5%nat (events w') = 1%nat.
Proof.
  intros x mid.
  assert (Hfresh : nifty_client.state x 0 initial_world)
    by (split; reflexivity).
  split; [exact Hfresh|].
  destruct (nifty_init_one_period x initial_world mid Hfresh
              eq_refl eq_refl eq_refl) as (w' & Hrun & _ & Hc & Hd).
  exists w'. split; [exact Hrun|]. split; [exact Hc | exact Hd].
Defined.

(** ** nifty_counter_for: one counter object per user *)

Lemma g_repeat_add (m k : nat) (c : scoped_initializer.G unit) :
  ∀ (w w' : World) (l : list scoped_initializer.call),
  scoped_initializer.g_repeat m c w = (l, Ok tt w') →
  scoped_initializer.g_repeat (m + k) c w
    = (l ++ fst (scoped_initializer.g_repeat k c w'),
       snd (scoped_initializer.g_repeat k c w')).
Proof.
  induction m as [|m IH]; intros w w' l H.
  - injection H as <- <-. simpl.
    by destruct (scoped_initializer.g_repeat k c w).
  - cbn [Nat.add scoped_initializer.g_repeat] in *.
    unfold scoped_initializer.g_bind in *.
    destruct (c w) as [l0 [[] v| |]]; [|done|done].
    destruct (scoped_initializer.g_repeat m c v) as [l1 o1] eqn:E.
    injection H as <- ->. rewrite (IH v w' l1 E). by rewrite app_assoc.
Qed.

Section NiftyCounters.
Import scoped_initializer.
Variable x : nifty_init.t.
Let a : addr := nifty_init.this x.

Lemma counter_ctor (d : Z) (w : World) :
  0 ≤ d → d + 1 < 2 ^ 31 → nifty_client.state x d w →
  ∃ w', ctor (nifty_counter_for x) w = ([(Initialize, a)], Ok tt w') ∧
        nifty_client.state x (d + 1) w' ∧
        events w' = events w ++ (if d =? 0 then [EvConstruct a] else []).
Proof.
  intros Hd Hlim Hst.
  destruct (nifty_claim_step x d w Hd Hlim Hst) as (w' & Hrun & Hst' & Hev).
  exists w'. split; [|by split].
  unfold ctor, nifty_counter_for, comma_fold, g_bind, invoke, of_nifty.
  cbn [e_initialize e_addr]. by rewrite Hrun.
Qed.

Lemma counter_dtor (d : Z) (w : World) :
  0 < d → d < 2 ^ 31 → nifty_client.state x d w →
  ∃ w', dtor (nifty_counter_for x) w = ([(Destroy, a)], Ok tt w') ∧
        nifty_client.state x (d - 1) w' ∧
        events w' = events w ++ (if d =? 1 then [EvDestruct a] else []).
Proof.
  intros Hd Hlim Hst.
  destruct (nifty_release_step x d w Hd Hlim Hst) as (w' & Hrun & Hst' & Hev).
  exists w'. split; [|by split].
  unfold dtor, noexcept, nifty_counter_for, assign_fold, g_bind, invoke,
    g_ret, of_nifty.
  cbn [e_destroy e_addr]. by rewrite Hrun.
Qed.

(** Constructing further counters while one exists, and destroying
    counters while another remains, leaves the history alone. *)
Lemma counters_ctor_more (n : nat) : ∀ (d : Z) (w : World),
  0 < d → d + Z.of_nat n < 2 ^ 31 → nifty_client.state x d w →
  ∃ w', g_repeat n (ctor (nifty_counter_for x)) w
          = (replicate n (Initialize, a), Ok tt w') ∧
        nifty_client.state x (d + Z.of_nat n) w' ∧ events w' = events w.
Proof.
  induction n as [|n IH]; intros d w Hd Hlim Hst.
  - exists w. split; [done|]. split; [|done]. by rewrite Z.add_0_r.
  - destruct (counter_ctor d w) as (w1 & Hrun & Hst1 & Hev); [lia|lia|done|].
    replace (d =? 0) with false in Hev by (symmetry; apply Z.eqb_neq; lia).
    rewrite app_nil_r in Hev.
    destruct (IH (d + 1) w1) as (w' & Hrest & Hst' & Hev'); [lia|lia|done|].
    exists w'. cbn [g_repeat]. unfold g_bind at 1. rewrite Hrun, Hrest.
    split; [done|]. split; [|by rewrite Hev', Hev].
    by replace (d + Z.of_nat (S n)) with (d + 1 + Z.of_nat n) by lia.
Qed.

Lemma counters_dtor_some (i : nat) : ∀ (d : Z) (w : World),
  Z.of_nat i < d → d < 2 ^ 31 → nifty_client.state x d w →
  ∃ w', g_repeat i (dtor (nifty_counter_for x)) w
          = (replicate i (Destroy, a), Ok tt w') ∧
        nifty_client.state x (d - Z.of_nat i) w' ∧ events w' = events w.
Proof.
  induction i as [|i IH]; intros d w Hd Hlim Hst.
  - exists w. split; [done|]. split; [|done]. by rewrite Z.sub_0_r.
  - destruct (counter_dtor d w) as (w1 & Hrun & Hst1 & Hev); [lia|lia|done|].
    replace (d =? 1) with false in Hev by (symmetry; apply Z.eqb_neq; lia).
    rewrite app_nil_r in Hev.
    destruct (IH (d - 1) w1) as (w' & Hrest & Hst' & Hev'); [lia|lia|done|].
    exists w'. cbn [g_repeat]. unfold g_bind at 1. rewrite Hrun, Hrest.
    split; [done|]. split; [|by rewrite Hev', Hev].
    by replace (d - Z.of_nat (S i)) with (d - 1 - Z.of_nat i) by lia.
Qed.
End NiftyCounters.

(** X8: [n] counter objects [nifty_counter_for<Nifty>] over one
    [nifty_init] (fewer than 2^31).  Constructing them constructs [T]
    once, with the first; as long as one of them remains, [T] stays
    alive, [get()] passes the check and nothing is destructed; the
    destructor of the last one runs the destructor of [T], once. *)
Theorem nifty_counter_for_shares (x : nifty_init.t) (n i : nat) (w : World) :
  let a := nifty_init.this x in
  let counter := scoped_initializer.nifty_counter_for x in
  nifty_client.state x 0 w →
  (i < n)%nat → Z.of_nat n < 2 ^ 31 →
  ∃ w1 w2 w3,
    scoped_initializer.g_repeat n (scoped_initializer.ctor counter) w
      = (replicate n (scoped_initializer.Initialize, a), Ok tt w1) ∧
    events w1 = events w ++ [EvConstruct a] ∧
    scoped_initializer.g_repeat i (scoped_initializer.dtor counter) w1
      = (replicate i (scoped_initializer.Destroy, a), Ok tt w2) ∧
    events w2 = events w1 ∧
    is_Some (objects w2 !! a) ∧
    nifty_init.get true x w2 = Ok a w2 ∧
    scoped_initializer.g_repeat (n - i) (scoped_initializer.dtor counter) w2
      = (replicate (n - i) (scoped_initializer.Destroy, a), Ok tt w3) ∧
    events w3 = events w ++ [EvConstruct a; EvDestruct a] ∧
    objects w3 !! a = None ∧ nifty_init._count x w3 = 0.
Proof.
  intros a counter Hfresh Hi Hn. subst counter.
  destruct n as [|n]; [lia|].
  (* the first counter constructs *)
  destruct (counter_ctor x 0 w) as (u & Hfirst & Hstu & Hevu); [lia|lia|done|].
  simpl in Hevu, Hstu.
  destruct (counters_ctor_more x n 1 u) as (w1 & Hmore & Hst1 & Hev1);
    [lia|lia|done|].
  (* some counters go *)
  destruct (counters_dtor_some x i (1 + Z.of_nat n) w1)
    as (w2 & Hsome & Hst2 & Hev2); [lia|lia|done|].
  (* the others go, but for the last *)
  destruct (counters_dtor_some x (n - i) (1 + Z.of_nat n - Z.of_nat i) w2)
    as (u' & Hrest & Hstu' & Hevu'); [lia|lia|done|].
  replace (1 + Z.of_nat n - Z.of_nat i - Z.of_nat (n - i)) with 1 in Hstu'
    by lia.
  destruct (counter_dtor x 1 u') as (w3 & Hlast & Hst3 & Hev3);
    [lia|lia|done|].
  simpl in Hev3, Hst3.
  exists w1, w2, w3.
  split. { cbn [scoped_initializer.g_repeat replicate].
           unfold scoped_initializer.g_bind at 1. by rewrite Hfirst, Hmore. }
  split; [by rewrite Hev1, Hevu|]. split; [done|]. split; [done|].
  pose proof Hst2 as [Hc2 Ho2]. fold a in Ho2.
  replace (0 <? 1 + Z.of_nat n - Z.of_nat i) with true in Ho2
    by (symmetry; apply Z.ltb_lt; lia).
  split; [done|]. split.
  { unfold nifty_init.get, bind, ATUM_LIFETIME_ASSERT. rewrite Hc2.
    by replace (0 <? 1 + Z.of_nat n - Z.of_nat i) with true
      by (symmetry; apply Z.ltb_lt; lia). }
  split.
  { replace (S n - i)%nat with ((n - i) + 1)%nat by lia.
    rewrite (g_repeat_add _ 1 _ _ _ _ Hrest), replicate_add.
    cbn [scoped_initializer.g_repeat]. unfold scoped_initializer.g_bind.
    by rewrite Hlast. }
  destruct Hst3 as [Hc3 Ho3].
  split; [|by split].
  by rewrite Hev3, Hevu', Hev2, Hev1, Hevu, <- app_assoc.
Qed.

Lemma nifty_counter_for_shares_witness :
  let x := nifty_init.Make (Storage 5) in
  let counter := scoped_initializer.nifty_counter_for x in
  nifty_client.state x 0 initial_world ∧ (1 < 3)%nat ∧
  Z.of_nat 3 < 2 ^ 31 ∧
  ∃ w1 w2,
    scoped_initializer.g_repeat 3 (scoped_initializer.ctor counter)
      initial_world
      = (replicate 3 (scoped_initializer.Initialize, 5%nat), Ok tt w1) ∧
    scoped_initializer.g_repeat 1 (scoped_initializer.dtor counter) w1
      = (replicate 1 (scoped_initializer.Destroy, 5%nat), Ok tt w2) ∧
    events w2 = [EvConstruct 5%nat].
Proof.
  intros x counter.
  assert (Hfresh : nifty_client.state x 0 initial_world)
    by (split; reflexivity).
  assert (Hi : (1 < 3)%nat) by lia.
  assert (Hn : Z.of_nat 3 < 2 ^ 31) by (simpl; lia).
  split; [exact Hfresh|]. split; [exact Hi|]. split; [exact Hn|].
  destruct (nifty_counter_for_shares x 3 1 initial_world Hfresh Hi Hn)
    as (w1 & w2 & _ & Hc & Hev1 & Hd & Hev2 & _).
  exists w1, w2. split; [exact Hc|]. split; [exact Hd|].
  rewrite Hev2. exact Hev1.
Defined.

(** ** lazy_init: programs with several instances *)

Section LazyPrograms.
Import lazy_client.
Variable checked : bool.
Variable U : list lazy_init.t.
Hypothesis HU : one_per_instantiation U.

Let known (w : World) : Prop :=
  ∀ z, z ∈ U →
    statics w !! lazy_init.class z = None ∨
    statics w !! lazy_init.class z = Some (static_of checked z).

Lemma lazy_program_run (calls : list (lazy_init.t * call)) : ∀ w : World,
  (∀ z, z ∈ calls.*1 → z ∈ U) → known w →
  ∃ w',
    run checked calls w = Ok (map (λ zc, expected (fst zc) (snd zc)) calls) w' ∧
    ∀ z, z ∈ U →
      (statics w !! lazy_init.class z = Some (static_of checked z) →
       statics w' !! lazy_init.class z = Some (static_of checked z) ∧
       constructions (lazy_init.this z) (events w')
         = constructions (lazy_init.this z) (events w) ∧
       objects w' !! lazy_init.this z = objects w !! lazy_init.this z) ∧
      (statics w !! lazy_init.class z = None → z ∈ calls.*1 →
       statics w' !! lazy_init.class z = Some (static_of checked z) ∧
       constructions (lazy_init.this z) (events w')
         = S (constructions (lazy_init.this z) (events w)) ∧
       is_Some (objects w' !! lazy_init.this z)) ∧
      (statics w !! lazy_init.class z = None → z ∉ calls.*1 →
       statics w' !! lazy_init.class z = None ∧
       constructions (lazy_init.this z) (events w')
         = constructions (lazy_init.this z) (events w)).
Proof.
  unfold run. induction calls as [|[z0 c] rest IH]; intros w Hin Hknown.
  - exists w. split; [done|]. intros z Hz. split; [done|]. split; [|done].
    intros _ Habs. by apply elem_of_nil in Habs.
  - assert (Hz0 : z0 ∈ U) by (apply Hin; simpl; left).
    assert (Hrest : ∀ z, z ∈ rest.*1 → z ∈ U)
      by (intros z Hz; apply Hin; simpl; by right).
    cbn [map sequence fst snd].
    destruct (statics w !! lazy_init.class z0) as [s|] eqn:Hs0.
    + (* z0 has been used before: the call changes nothing *)
      assert (Hs : s = static_of checked z0).
      { destruct (Hknown z0 Hz0) as [H|H]; rewrite Hs0 in H; [done|].
        by injection H. }
      subst s. destruct (IH w Hrest Hknown) as (w' & Hrun & Hall).
      exists w'. split.
      { unfold bind at 1. rewrite (lazy_call_later checked z0 w c Hs0).
        unfold bind at 1. by rewrite Hrun. }
      intros z Hz. destruct (Hall z Hz) as (H1 & H2 & H3).
      split; [done|]. split.
      * intros Hnone Hzin. apply H2; [done|]. simpl in Hzin.
        apply elem_of_cons in Hzin as [->|Hzin]; [|done].
        by rewrite Hs0 in Hnone.
      * intros Hnone Hzout. apply H3; [done|]. intros Hzin.
        apply Hzout. simpl. by right.
    + (* first use of z0 *)
      destruct (lazy_call_first checked z0 w c Hs0)
        as (w1 & Hcall & Hobj & Hst & _ & _ & Hev).
      assert (Hother : ∀ z, z ∈ U →
                lazy_init.class z ≠ lazy_init.class z0 →
                statics w1 !! lazy_init.class z
                  = statics w !! lazy_init.class z ∧
                objects w1 !! lazy_init.this z
                  = objects w !! lazy_init.this z ∧
                constructions (lazy_init.this z) (events w1)
                  = constructions (lazy_init.this z) (events w)).
      { intros z Hz Hne.
        assert (Hna : lazy_init.this z0 ≠ lazy_init.this z).
        { intros Heq. apply Hne. f_equal. apply HU; [done|done|by right]. }
        rewrite Hst, Hobj, Hev, constructions_app.
        rewrite lookup_insert_ne by done. rewrite lookup_insert_ne by done.
        rewrite constructions_other by done. split; [done|]. split; [done|lia]. }
      assert (Hsame : ∀ z, z ∈ U →
                lazy_init.class z = lazy_init.class z0 → z = z0)
        by (intros z Hz Heq; apply HU; [done|done|by left]).
      assert (Hknown1 : known w1).
      { intros z Hz.
        destruct (decide (lazy_init.class z = lazy_init.class z0)) as [Heq|Hne].
        - right. rewrite (Hsame z Hz Heq), Hst. apply lookup_insert_eq.
        - destruct (Hother z Hz Hne) as (-> & _). by apply Hknown. }
      destruct (IH w1 Hrest Hknown1) as (w' & Hrun & Hall).
      exists w'. split.
      { unfold bind at 1. rewrite Hcall. unfold bind at 1. by rewrite Hrun. }
      intros z Hz. destruct (Hall z Hz) as (H1 & H2 & H3).
      destruct (decide (lazy_init.class z = lazy_init.class z0)) as [Heq|Hne].
      * (* z is z0 *)
        pose proof (Hsame z Hz Heq) as ->.
        assert (Hdone : statics w1 !! lazy_init.class z0
                        = Some (static_of checked z0))
          by (rewrite Hst; apply lookup_insert_eq).
        destruct (H1 Hdone) as (Hs' & Hc' & Ho').
        split; [by rewrite Hs0|]. split.
        -- intros _ _. split; [done|]. split.
           ++ rewrite Hc', Hev, constructions_app, constructions_construct. lia.
           ++ rewrite Ho', Hobj, lookup_insert_eq. by eexists.
        -- intros _ Hout. exfalso. apply Hout. simpl. by left.
      * destruct (Hother z Hz Hne) as (Hs1 & Ho1 & Hc1).
        split; [|split].
        -- intros Hd. rewrite <- Hs1 in Hd. destruct (H1 Hd) as (? & -> & ->).
           by rewrite Ho1, Hc1.
        -- intros Hnone Hzin. rewrite <- Hs1 in Hnone.
           simpl in Hzin. apply elem_of_cons in Hzin as [->|Hzin]; [done|].
           destruct (H2 Hnone Hzin) as (? & -> & ?). by rewrite Hc1.
        -- intros Hnone Hzout. rewrite <- Hs1 in Hnone.
           assert (Hzout' : z ∉ rest.*1)
             by (intros Hzin; apply Hzout; simpl; by right).
           destruct (H3 Hnone Hzout') as (? & ->). by rewrite Hc1.
Qed.
End LazyPrograms.

(** X9: a program in which every [lazy_init] instantiation has one
    instance (at an address of its own), none of them used yet.
    Whatever calls of [initialize()] and [get()] it makes on them, in
    whatever order, in a checked or an unchecked build: every call
    returns, no assertion fails, every [get()] returns the storage of
    its own instance, and every instance that is used is constructed
    exactly once and is alive at the end. *)
Theorem lazy_init_one_instance_each (checked : bool)
    (calls : list (lazy_init.t * lazy_client.call)) (w : World) :
  lazy_client.one_per_instantiation calls.*1 →
  (∀ z, z ∈ calls.*1 → statics w !! lazy_init.class z = None) →
  ∃ w',
    lazy_client.run checked calls w
      = Ok (map (λ zc, lazy_client.expected (fst zc) (snd zc)) calls) w' ∧
    ∀ z, z ∈ calls.*1 →
      constructions (lazy_init.this z) (events w')
        = S (constructions (lazy_init.this z) (events w)) ∧
      is_Some (objects w' !! lazy_init.this z) ∧
      ∀ c, lazy_client.do_call checked z c w'
           = Ok (lazy_client.expected z c) w'.
Proof.
  intros HU Hfresh.
  destruct (lazy_program_run checked calls.*1 HU calls w) as (w' & Hrun & Hall).
  { done. }
  { intros z Hz. left. by apply Hfresh. }
  exists w'. split; [done|]. intros z Hz.
  destruct (Hall z Hz) as (_ & H2 & _).
  destruct (H2 (Hfresh z Hz) Hz) as (Hs & Hc & Ho).
  split; [done|]. split; [done|]. intros c. by apply lazy_call_later.
Qed.

Lemma lazy_init_one_instance_each_witness :
  let x := lazy_init.Make ("tag", "int", "init_default") (Storage 1) in
  let y := lazy_init.Make ("tag", "long", "init_default") (Storage 2) in
  let calls := [(x, lazy_client.CallGet); (y, lazy_client.CallInitialize);
                (x, lazy_client.CallGet); (y, lazy_client.CallGet)] in
  lazy_client.one_per_instantiation calls.*1 ∧
  (∀ z, z ∈ calls.*1 → statics initial_world !! lazy_init.class z = None) ∧
  ∃ w', lazy_client.run true calls initial_world
        = Ok [Some 1%nat; None; Some 1%nat; Some 2%nat] w'.
Proof.
  intros x y calls.
  assert (HU : lazy_client.one_per_instantiation calls.*1).
  { intros z z' Hz Hz' Heq. simpl in Hz, Hz'.
    repeat (apply elem_of_cons in Hz as [->|Hz]);
      try (by apply elem_of_nil in Hz);
      repeat (apply elem_of_cons in Hz' as [->|Hz']);
      try (by apply elem_of_nil in Hz');
      try reflexivity;
      destruct Heq as [Heq|Heq]; vm_compute in Heq; discriminate Heq. }
  assert (Hfresh : ∀ z, z ∈ calls.*1 →
            statics initial_world !! lazy_init.class z = None)
    by (intros z _; apply lookup_empty).
  split; [exact HU|]. split; [exact Hfresh|].
  destruct (lazy_init_one_instance_each true calls initial_world HU Hfresh)
    as (w' & Hrun & _).
  exists w'. exact Hrun.
Defined.

Lemma lazy_init_same_instantiation_unchecked_witness :
  let x := lazy_init.Make ("config_tag", "config", "init_default") (Storage 1) in
  let y := lazy_init.Make ("config_tag", "config", "init_default") (Storage 2) in
  lazy_init.class x = lazy_init.class y ∧
  lazy_init.this x ≠ lazy_init.this y ∧
  statics initial_world !! lazy_init.class x = None ∧
  ∃ w1,
    lazy_init.get false x initial_world = Ok 1%nat w1 ∧
    lazy_init.get false y w1 = Ok 2%nat w1 ∧
    objects w1 !! 2%nat = None.
Proof.
  intros x y.
  assert (Hne : lazy_init.this x ≠ lazy_init.this y) by (vm_compute; lia).
  split; [reflexivity|]. split; [exact Hne|]. split; [reflexivity|].
  destruct (lazy_init_same_instantiation_unchecked x y initial_world
              lazy_client.CallGet lazy_client.CallGet eq_refl Hne eq_refl)
    as (w1 & Hx & Hy & Hobj).
  exists w1. split; [exact (lazy_call_get_inv false x _ _ Hx)|].
  split; [exact (lazy_call_get_inv false y _ _ Hy)|]. exact Hobj.
Defined.

(** ** Scopes over the wrappers *)

(** X11: a [lazy_init] in a [scoped_initializer] outlives the scope.
    The group initializes it on entry and calls its [destroy()] on
    exit, which does nothing: after the scope the object is alive and
    the history has no destruction, and a second scope over the same
    instance constructs nothing. *)
Theorem lazy_init_outlives_scope (checked : bool) (x : lazy_init.t)
    (w : World) :
  let a := lazy_init.this x in
  let group := [scoped_initializer.of_lazy checked x] in
  let calls := [(scoped_initializer.Initialize, a);
                (scoped_initializer.Destroy, a)] in
  statics w !! lazy_init.class x = None →
  ∃ w1,
    scoped_initializer.scope group (lazy_init.get checked x) w
      = (calls, Ok a w1) ∧
    events w1 = events w ++ [EvConstruct a] ∧
    objects w1 !! a = Some (length (events w)) ∧
    scoped_initializer.scope group (lazy_init.get checked x) w1
      = (calls, Ok a w1).
Proof.
  intros a group calls Hnone. subst group calls.
  destruct (lazy_initialize_first checked x w Hnone)
    as (w1 & Hinit & Hobj & Hst & _ & _ & Hev).
  assert (Hdone : statics w1 !! lazy_init.class x
                  = Some (lazy_client.static_of checked x))
    by (rewrite Hst; apply lookup_insert_eq).
  pose proof (lazy_initialize_later checked x w1 Hdone) as Hlater.
  assert (Hget : lazy_init.get checked x w1 = Ok a w1).
  { unfold lazy_init.get, bind. by rewrite Hlater. }
  assert (Hscope : ∀ w0, lazy_init.initialize checked x w0 = Ok tt w1 →
            scoped_initializer.scope [scoped_initializer.of_lazy checked x]
              (lazy_init.get checked x) w0
            = ([(scoped_initializer.Initialize, a);
                (scoped_initializer.Destroy, a)], Ok a w1)).
  { intros w0 H0.
    unfold scoped_initializer.scope, scoped_initializer.ctor,
      scoped_initializer.dtor, scoped_initializer.noexcept,
      scoped_initializer.comma_fold, scoped_initializer.assign_fold,
      scoped_initializer.g_bind, scoped_initializer.invoke,
      scoped_initializer.g_ret, scoped_initializer.of_lazy.
    cbn [scoped_initializer.e_initialize scoped_initializer.e_destroy
         scoped_initializer.e_addr].
    rewrite H0. simpl. by rewrite Hget. }
  exists w1. split; [by apply Hscope|]. split; [done|].
  split; [rewrite Hobj; apply lookup_insert_eq|by apply Hscope].
Qed.

Lemma lazy_init_outlives_scope_witness :
  let x := lazy_init.Make ("pool_tag", "pool", "init_default") (Storage 3) in
  statics initial_world !! lazy_init.class x = None ∧
  ∃ w1,
    scoped_initializer.scope [scoped_initializer.of_lazy true x]
      (lazy_init.get true x) initial_world
      = ([(scoped_initializer.Initialize, 3%nat);
          (scoped_initializer.Destroy, 3%nat)], Ok 3%nat w1) ∧
    events w1 = [EvConstruct 3%nat].
Proof.
  intros x. split; [reflexivity|].
  destruct (lazy_init_outlives_scope true x initial_world eq_refl)
    as (w1 & Hscope & Hev & _).
  exists w1. split; [exact Hscope | exact Hev].
Defined.

(** X12: a [manual_init] in a [scoped_initializer] lives exactly as long
    as the scope.  From any state, the group constructs it on entry,
    every [get()] in the body returns the reference to it, and the
    group destructs it on exit: the scope adds one construction and one
    destruction to the history and leaves the storage without an
    object; a [get()] after the scope fails the assertion in a checked
    build and returns a reference to the dead storage in an unchecked
    one. *)
Theorem manual_init_lives_in_scope (checked : bool) (x : manual_init.t)
    (n : nat) (w : World) :
  let a := manual_init.this x in
  let group := [scoped_initializer.of_manual checked x] in
  ∃ w3,
    scoped_initializer.scope group
      (sequence (replicate n (manual_init.get checked x))) w
      = ([(scoped_initializer.Initialize, a);
          (scoped_initializer.Destroy, a)], Ok (replicate n a) w3) ∧
    events w3 = events w ++ [EvConstruct a; EvDestruct a] ∧
    objects w3 !! a = None ∧
    manual_init.get checked x w3 =
      (if checked then Aborted AssertionFailed w3 else Ok a w3).
Proof.
  intros a group. subst group.
  destruct (manual_initialize_spec x checked w)
    as (w1 & Hinit & Hobj & Hev1 & Hflag & _).
  destruct (manual_destroy_live x checked w1 _ Hobj)
    as (w3 & Hdes & Hgone & Hev3 & Hoff).
  assert (Hget : manual_init.get checked x w1 = Ok a w1).
  { destruct checked; [|done]. rewrite manual_get_checked.
    by rewrite (Hflag eq_refl). }
  pose proof (sequence_unchanged _ _ _ n Hget) as Hbody.
  exists w3. split.
  { unfold scoped_initializer.scope, scoped_initializer.ctor,
      scoped_initializer.dtor, scoped_initializer.noexcept,
      scoped_initializer.comma_fold, scoped_initializer.assign_fold,
      scoped_initializer.g_bind, scoped_initializer.invoke,
      scoped_initializer.g_ret, scoped_initializer.of_manual.
    cbn [scoped_initializer.e_initialize scoped_initializer.e_destroy
         scoped_initializer.e_addr].
    rewrite Hinit. cbn [fst snd app]. rewrite Hbody. by rewrite Hdes. }
  split; [by rewrite Hev3, Hev1, <- app_assoc|]. split; [done|].
  destruct checked; [|done].
  rewrite manual_get_checked. by rewrite (Hoff eq_refl).
Qed.

(** ** The constructor of a group that fails *)

Lemma comma_fold_app (pre rest : list scoped_initializer.entity) :
  ∀ (w w1 : World) (l : list scoped_initializer.call),
  scoped_initializer.comma_fold pre w = (l, Ok tt w1) →
  scoped_initializer.comma_fold (pre ++ rest) w
    = (l ++ fst (scoped_initializer.comma_fold rest w1),
       snd (scoped_initializer.comma_fold rest w1)).
Proof.
  induction pre as [|e pre IH]; intros w w1 l H.
  - injection H as <- <-. simpl.
    by destruct (scoped_initializer.comma_fold rest w).
  - cbn [app scoped_initializer.comma_fold] in *.
    unfold scoped_initializer.g_bind in *.
    destruct (scoped_initializer.invoke scoped_initializer.Initialize e w)
      as [l0 [[] v| |]]; [|done|done].
    destruct (scoped_initializer.comma_fold pre v) as [l1 o1] eqn:E.
    injection H as <- ->. rewrite (IH v w1 l1 E). by rewrite app_assoc.
Qed.

(** X13: when [initialize()] of an entity throws, the constructor of
    the group lets the exception through.  The entities declared before
    it have been initialized, in order; the ones declared after it are
    not touched; and since the group was never constructed its
    destructor does not run: the body of the scope is skipped and no
    [destroy()] is called, so the entities initialized so far stay
    initialized. *)
Theorem scoped_initializer_initialize_raises {A : Type}
    (pre post : list scoped_initializer.entity)
    (e : scoped_initializer.entity) (body : M A) (w w1 w2 : World) :
  (scoped_initializer.ctor pre w).2 = Ok tt w1 →
  scoped_initializer.e_initialize e w1 = Thrown w2 →
  let calls := scoped_initializer.inits pre
                 ++ [(scoped_initializer.Initialize,
                      scoped_initializer.e_addr e)] in
  scoped_initializer.ctor (pre ++ e :: post) w = (calls, Thrown w2) ∧
  scoped_initializer.scope (pre ++ e :: post) body w = (calls, Thrown w2) ∧
  ∀ z, (scoped_initializer.Destroy, z) ∉ calls.
Proof.
  intros Hpre He calls. subst calls.
  destruct (scoped_initializer.ctor pre w) as [l o] eqn:E.
  simpl in Hpre. subst o.
  destruct (ctor_calls _ _ _ _ E) as [_ Hall].
  rewrite (Hall w1 eq_refl) in E. clear Hall.
  assert (Hc : scoped_initializer.ctor (pre ++ e :: post) w
               = (scoped_initializer.inits pre
                    ++ [(scoped_initializer.Initialize,
                         scoped_initializer.e_addr e)], Thrown w2)).
  { unfold scoped_initializer.ctor in *.
    rewrite (comma_fold_app pre (e :: post) w w1 _ E).
    cbn [scoped_initializer.comma_fold].
    unfold scoped_initializer.g_bind, scoped_initializer.invoke.
    by rewrite He. }
  split; [done|]. split.
  - unfold scoped_initializer.scope. by rewrite Hc.
  - intros z Hin. apply elem_of_app in Hin as [Hin|Hin].
    + unfold scoped_initializer.inits in Hin.
      apply list_elem_of_fmap in Hin as (e' & Heq & _). discriminate Heq.
    + apply list_elem_of_singleton in Hin. discriminate Hin.
Qed.

Lemma scoped_initializer_initialize_raises_witness :
  let A := scoped_initializer.of_manual true (manual_init.Make (Storage 1)) in
  let B := {| scoped_initializer.e_addr := 2%nat;
              scoped_initializer.e_initialize := λ w, Thrown w;
              scoped_initializer.e_destroy := ret tt |} in
  let C := scoped_initializer.of_nifty (nifty_init.Make (Storage 3)) in
  ∃ w1,
    (scoped_initializer.ctor [A] initial_world).2 = Ok tt w1 ∧
    scoped_initializer.e_initialize B w1 = Thrown w1 ∧
    scoped_initializer.scope [A; B; C]
      (manual_init.get true (manual_init.Make (Storage 1))) initial_world
      = ([(scoped_initializer.Initialize, 1%nat);
          (scoped_initializer.Initialize, 2%nat)], Thrown w1) ∧
    objects w1 !! 1%nat = Some 0%nat.
Proof.
  intros A B C. subst A B C. eexists.
  split; [vm_compute; reflexivity|].
  split; [reflexivity|].
  split; [|vm_compute; reflexivity].
  refine (proj1 (proj2 (scoped_initializer_initialize_raises
                          [_] [_] _ _ _ _ _ _ _))).
  - vm_compute. reflexivity.
  - reflexivity.
Defined.

(** ** Threads: where every run ends *)

Section ThreadsEnd.
Import threads.
Variable checked : bool.
Variable x : lazy_init.t.


End ThreadsEnd.



(** ** What a wrapper leaves alone *)

Section Confined.
Variable a : addr.

Lemma confined_ret {A} (r : A) : confined a (ret r).
Proof.
  intros w. simpl. split; [done|]. split; [done|].
  exists []. by rewrite app_nil_r.
Qed.

Lemma confined_bind {A B} (m : M A) (k : A → M B) :
  confined a m → (∀ r, confined a (k r)) → confined a (bind m k).
Proof.
  intros Hm Hk w. specialize (Hm w). unfold bind.
  destruct (m w) as [r w1|w1|f w1]; simpl in Hm; [|done|done].
  destruct Hm as (Hs & Ho & l & He & Hl).
  destruct (Hk r w1) as (Hs' & Ho' & l' & He' & Hl').
  split; [by rewrite Hs', Hs|]. split.
  - intros b Hb. destruct (Ho b Hb) as (<- & <- & <-). by apply Ho'.
  - exists (l ++ l'). split; [by rewrite He', He, app_assoc|].
    by apply Forall_app.
Qed.

Lemma confined_sequence {A} (ms : list (M A)) :
  Forall (confined a) ms → confined a (sequence ms).
Proof.
  induction 1 as [|m ms Hm _ IH]; [apply confined_ret|].
  simpl. apply confined_bind; [done|]. intros r.
  apply confined_bind; [done|]. intros rs. apply confined_ret.
Qed.

Lemma confined_init : confined a (init a).
Proof.
  intros w. simpl. split; [done|]. split.
  - intros b Hb. by rewrite lookup_insert_ne.
  - exists [EvConstruct a]. split; [done|]. repeat constructor.
Qed.

Lemma confined_destruct_at : confined a (destruct_at a).
Proof.
  intros w. unfold destruct_at. destruct (objects w !! a); simpl.
  - split; [done|]. split.
    + intros b Hb. by rewrite lookup_delete_ne.
    + exists [EvDestruct a]. split; [done|]. constructor; [by right|constructor].
  - split; [done|]. split; [done|]. exists []. by rewrite app_nil_r.
Qed.

Lemma confined_assert (checked : bool) (Cond : World → bool) :
  confined a (ATUM_LIFETIME_ASSERT checked Cond).
Proof.
  intros w. unfold ATUM_LIFETIME_ASSERT.
  destruct checked; [destruct (Cond w)|]; simpl;
    (split; [done|]; split; [done|]; exists []; by rewrite app_nil_r).
Qed.

Lemma confined_set_initialized (b : bool) :
  confined a (λ w, Ok tt (set_initialized a b w)).
Proof.
  intros w. simpl. split; [done|]. split.
  - intros c Hc. by rewrite lookup_insert_ne.
  - exists []. by rewrite app_nil_r.
Qed.
End Confined.

(** X15: a [manual_init] writes only what is its own.  Whatever calls
    of [initialize()], [destroy()] and [get()] are made on it, in either
    build and however they end, no static changes, the objects, counters
    and [_initialized] flags at every other address are as before, and
    the history gains only constructions and destructions at the
    address of the instance. *)
Theorem manual_init_confined (checked : bool) (x : manual_init.t)
    (ops : list manual_client.op) :
  confined (manual_init.this x) (manual_client.run checked x ops).
Proof.
  unfold manual_client.run. apply confined_sequence.
  apply Forall_fmap, Forall_forall. intros o _. simpl.
  destruct o; simpl.
  - apply confined_bind; [|intros; apply confined_ret].
    unfold manual_init.initialize. apply confined_bind; [apply confined_init|].
    intros _. destruct checked;
      [apply confined_set_initialized|apply confined_ret].
  - apply confined_bind; [|intros; apply confined_ret].
    unfold manual_init.destroy.
    apply confined_bind; [apply confined_destruct_at|].
    intros _. destruct checked;
      [apply confined_set_initialized|apply confined_ret].
  - apply confined_bind; [|intros; apply confined_ret].
    unfold manual_init.get. apply confined_bind; [apply confined_assert|].
    intros _. apply confined_ret.
Qed.

(** X16: a [nifty_init] writes only what is its own.  Whatever trace of
    [initialize()] and [destroy()] calls is run on it, however long and
    however it ends, no static changes, the objects, counters and flags
    at every other address are as before, and the history gains only
    constructions and destructions at the address of the instance. *)
Theorem nifty_init_confined (x : nifty_init.t) (ops : list nifty_client.op) :
  confined (nifty_init.this x) (nifty_client.run x ops).
Proof.
  assert (Hcount : ∀ A (f : World → A) (g : World → Z),
            confined (nifty_init.this x)
              (λ w, Ok (f w) (set_count (nifty_init.this x) (g w) w))).
  { intros A f g w. simpl. split; [done|]. split.
    - intros b Hb. by rewrite lookup_insert_ne.
    - exists []. by rewrite app_nil_r. }
  induction ops as [|o ops IH]; [apply confined_ret|].
  simpl. apply confined_bind; [|done]. destruct o; simpl.
  - unfold nifty_init.initialize. apply confined_bind.
    + apply (Hcount Z (nifty_init._count x)
               (λ w, int_wrap (nifty_init._count x w + 1))).
    + intros old. destruct (old =? 0); [apply confined_init|apply confined_ret].
  - unfold nifty_init.destroy. apply confined_bind.
    + apply (Hcount Z (λ w, int_wrap (nifty_init._count x w - 1))
               (λ w, int_wrap (nifty_init._count x w - 1))).
    + intros new. destruct (new =? 0);
        [apply confined_destruct_at|apply confined_ret].
Qed.

(** ** A group of manual_init *)

Section ManualGroup.
Import scoped_initializer.
Variable checked : bool.

Let group (xs : list manual_init.t) : list entity := of_manual checked <$> xs.

Lemma manual_group_ctor (xs : list manual_init.t) : ∀ w : World,
  ∃ w1,
    comma_fold (group xs) w = (inits (group xs), Ok tt w1) ∧
    events w1 = events w ++ (EvConstruct ∘ manual_init.this <$> xs) ∧
    (∀ b, is_Some (objects w !! b) → is_Some (objects w1 !! b)) ∧
    (∀ b, initialized w !! b = Some true → initialized w1 !! b = Some true) ∧
    ∀ x, x ∈ xs →
      is_Some (objects w1 !! manual_init.this x) ∧
      (checked = true → initialized w1 !! manual_init.this x = Some true).
Proof.
  induction xs as [|x xs IH]; intros w.
  - exists w. split; [done|]. split; [by rewrite app_nil_r|].
    split; [done|]. split; [done|]. intros x Hx. by apply elem_of_nil in Hx.
  - assert (Hinit : ∃ w0, manual_init.initialize checked x w = Ok tt w0 ∧
              objects w0 = <[manual_init.this x := length (events w)]> (objects w) ∧
              events w0 = events w ++ [EvConstruct (manual_init.this x)] ∧
              initialized w0 =
                (if checked then <[manual_init.this x := true]> (initialized w)
                 else initialized w)).
    { unfold manual_init.initialize, bind, init. simpl.
      destruct checked; eexists; by repeat split. }
    destruct Hinit as (w0 & Hrun & Hobj & Hev & Hflag).
    destruct (IH w0) as (w1 & Hrest & Hev1 & Hlive & Hset & Hall).
    exists w1. split.
    { unfold group in *. cbn [fmap list_fmap comma_fold inits map].
      unfold g_bind, invoke. cbn [e_initialize e_addr of_manual].
      rewrite Hrun. fold (of_manual checked).
      change (list_fmap _ _ (of_manual checked) xs)
        with (of_manual checked <$> xs).
      by rewrite Hrest. }
    split; [by rewrite Hev1, Hev, <- app_assoc|].
    split.
    { intros b Hb. apply Hlive. rewrite Hobj.
      destruct (decide (manual_init.this x = b)) as [->|Hne].
      - rewrite lookup_insert_eq. by eexists.
      - by rewrite lookup_insert_ne. }
    split.
    { intros b Hb. apply Hset. rewrite Hflag. destruct checked; [|done].
      destruct (decide (manual_init.this x = b)) as [->|Hne].
      - by rewrite lookup_insert_eq.
      - by rewrite lookup_insert_ne. }
    intros y Hy. apply elem_of_cons in Hy as [->|Hy]; [|by apply Hall].
    split.
    + apply Hlive. rewrite Hobj, lookup_insert_eq. by eexists.
    + intros ->. apply Hset. by rewrite Hflag, lookup_insert_eq.
Qed.

Lemma manual_group_dtor (xs : list manual_init.t) : ∀ w : World,
  NoDup (manual_init.this <$> xs) →
  (∀ x, x ∈ xs → is_Some (objects w !! manual_init.this x)) →
  ∃ w2,
    assign_fold (group xs) w = (destroys (group xs), Ok 0 w2) ∧
    events w2 = events w ++ (EvDestruct ∘ manual_init.this <$> rev xs) ∧
    (∀ b, b ∉ manual_init.this <$> xs → objects w2 !! b = objects w !! b) ∧
    ∀ x, x ∈ xs → objects w2 !! manual_init.this x = None.
Proof.
  induction xs as [|x xs IH]; intros w Hnd Hlive.
  - exists w. split; [done|]. split; [by rewrite app_nil_r|].
    split; [done|]. intros x Hx. by apply elem_of_nil in Hx.
  - rewrite fmap_cons in Hnd. apply NoDup_cons in Hnd as [Hx Hnd].
    destruct (IH w Hnd) as (w1 & Hrest & Hev1 & Hframe & Hgone).
    { intros y Hy. apply Hlive. by right. }
    assert (Hxlive : is_Some (objects w1 !! manual_init.this x)).
    { rewrite (Hframe _ Hx). apply Hlive. by left. }
    destruct Hxlive as [o Ho].
    assert (Hdes : ∃ w2, manual_init.destroy checked x w1 = Ok tt w2 ∧
              objects w2 = delete (manual_init.this x) (objects w1) ∧
              events w2 = events w1 ++ [EvDestruct (manual_init.this x)]).
    { unfold manual_init.destroy, bind, destruct_at, storage_ops.get.
      unfold manual_init.this in Ho. rewrite Ho. simpl.
      destruct checked; eexists; by repeat split. }
    destruct Hdes as (w2 & Hrun & Hobj & Hev2).
    exists w2. split.
    { unfold group in *. cbn [fmap list_fmap assign_fold].
      change (list_fmap _ _ (of_manual checked) xs)
        with (of_manual checked <$> xs).
      unfold g_bind at 1. rewrite Hrest.
      unfold g_bind, invoke, g_ret. cbn [e_destroy e_addr of_manual].
      rewrite Hrun. unfold destroys. cbn [rev]. rewrite map_app.
      cbn [map e_addr of_manual]. by rewrite app_nil_r. }
    split.
    { rewrite Hev2, Hev1. cbn [rev]. rewrite fmap_app, <- app_assoc. done. }
    split.
    { intros b Hb. rewrite fmap_cons in Hb. apply not_elem_of_cons in Hb as [Hne Hb].
      rewrite Hobj, lookup_delete_ne by done. by apply Hframe. }
    intros y Hy. rewrite Hobj.
    destruct (decide (manual_init.this x = manual_init.this y)) as [->|Hne].
    + apply lookup_delete_eq.
    + rewrite lookup_delete_ne by done.
      apply elem_of_cons in Hy as [->|Hy]; [done|]. by apply Hgone.
Qed.
End ManualGroup.

(** X17: a [scoped_initializer] over several [manual_init] objects at
    different addresses.  Its constructor returns and constructs all of
    them, in the declared order; every one of them is then alive and
    its [get()] returns; its destructor returns and destructs all of
    them, once each, in the reverse order, and leaves none alive. *)
Theorem scoped_manual_init_group (checked : bool) (xs : list manual_init.t)
    (w : World) :
  let group := scoped_initializer.of_manual checked <$> xs in
  NoDup (manual_init.this <$> xs) →
  ∃ w1 w2,
    scoped_initializer.ctor group w
      = (scoped_initializer.inits group, Ok tt w1) ∧
    events w1 = events w ++ (EvConstruct ∘ manual_init.this <$> xs) ∧
    (∀ x, x ∈ xs →
       is_Some (objects w1 !! manual_init.this x) ∧
       manual_init.get checked x w1 = Ok (manual_init.this x) w1) ∧
    scoped_initializer.dtor group w1
      = (scoped_initializer.destroys group, Ok tt w2) ∧
    events w2 = events w1 ++ (EvDestruct ∘ manual_init.this <$> rev xs) ∧
    (∀ x, x ∈ xs → objects w2 !! manual_init.this x = None).
Proof.
  intros group Hnd. subst group.
  destruct (manual_group_ctor checked xs w)
    as (w1 & Hctor & Hev1 & _ & _ & Hall).
  destruct (manual_group_dtor checked xs w1 Hnd)
    as (w2 & Hdtor & Hev2 & _ & Hgone).
  { intros x Hx. by apply Hall. }
  exists w1, w2. split; [done|]. split; [done|]. split.
  { intros x Hx. destruct (Hall x Hx) as [Hlive Hflag]. split; [done|].
    destruct checked; [|done]. rewrite manual_get_checked.
    unfold manual_init._initialized. by rewrite (Hflag eq_refl). }
  split.
  { unfold scoped_initializer.dtor, scoped_initializer.noexcept,
      scoped_initializer.g_bind, scoped_initializer.g_ret.
    rewrite Hdtor. by rewrite app_nil_r. }
  by split.
Qed.

Lemma scoped_manual_init_group_witness :
  let xs := [manual_init.Make (Storage 1); manual_init.Make (Storage 2)] in
  NoDup (manual_init.this <$> xs) ∧
  ∃ w1 w2,
    scoped_initializer.ctor (scoped_initializer.of_manual true <$> xs)
      initial_world
      = ([(scoped_initializer.Initialize, 1%nat);
          (scoped_initializer.Initialize, 2%nat)], Ok tt w1) ∧
    scoped_initializer.dtor (scoped_initializer.of_manual true <$> xs) w1
      = ([(scoped_initializer.Destroy, 2%nat);
          (scoped_initializer.Destroy, 1%nat)], Ok tt w2) ∧
    events w2 = [EvConstruct 1%nat; EvConstruct 2%nat;
                 EvDestruct 2%nat; EvDestruct 1%nat].
Proof.
  intros xs.
  assert (Hnd : NoDup (manual_init.this <$> xs)).
  { simpl. apply NoDup_cons. split.
    - intros Hin. apply list_elem_of_singleton in Hin. discriminate Hin.
    - apply NoDup_singleton. }
  split; [exact Hnd|].
  destruct (scoped_manual_init_group true xs initial_world Hnd)
    as (w1 & w2 & Hc & Hev1 & _ & Hd & Hev2 & _).
  exists w1, w2. split; [exact Hc|]. split; [exact Hd|].
  rewrite Hev2, Hev1. reflexivity.
Defined.
